(** * o1js provable gadgets: range checks and the indexed Merkle map

    A shallow embedding of
      - [src/lib/gadgets/range-check.ts]          (range-check gadgets)
      - [src/lib/provable/merkle-tree-indexed.ts] (indexed Merkle map helpers)
    together with the properties stated about them.

    Conventions of the embedding.
      - a JS [bigint] is a [Z];
      - a JS [number] that holds an integer (a position in a sparse array,
        a search index, a length) is the [Z] it holds, and the arithmetic
        on it rounds as binary64 does: see [Number.rnd]; a tree level or
        height, which only ever counts rows of the [nodes] array, is a
        [nat];
      - a JS exception is the [Throw] outcome of a state-and-exception
        monad; the message of an [Error] is kept as the string the code
        builds;
      - a sparse JS array (an absent entry reads as [undefined]) is a
        finite map from positions to values; [undefined] is [None]. *)

From Stdlib Require Import ZArith Lia Bool.
From stdpp Require Import base option list gmap strings pretty.

Local Open Scope Z_scope.

(* ===================================================================== *)
(** * Part I: definitions                                                 *)
(* ===================================================================== *)

(** ** JS numbers that hold integers *)

Module Number.

(** The binary64 number nearest to the integer [x], ties going to the
    even significand: what [a + b], [a - b] or [a * b] evaluate to when
    the exact result is [x]. Integers up to [2^53] in magnitude are
    numbers themselves; above, the [e] lowest bits are rounded away,
    where [e] leaves 53 significant bits. (The overflow to [Infinity]
    near [2^1024] is not part of the embedding.) *)
Definition rnd (x : Z) : Z :=
  if Z.abs x <=? 2 ^ 53 then x
  else
    let e := Z.log2 (Z.abs x) - 52 in
    let q := x / 2 ^ e in
    let r := x mod 2 ^ e in
    let half := 2 ^ (e - 1) in
    2 ^ e * (if r <? half then q
             else if half <? r then q + 1
             else if Z.even q then q else q + 1).

End Number.

(** ** Low-node search: [bisectUnique] *)

Module Bisect.
Import Number.

(** The returned object [{ lowIndex, foundValue }]. *)
Record result := mkResult { lowIndex : Z; foundValue : bool }.

(** [Math.ceil(s / 2)] for a number [s] that holds an integer: halving
    is exact, and so is the ceiling. *)
Definition ceil_half (s : Z) : Z := (s + 1) / 2.

(** What one pass through the body of [while (true)] does: it returns, or
    it goes round again with new bounds. *)
Inductive pass := Return (r : result) | Again (iLow iHigh : Z).

Definition body (target : Z) (getValue : Z -> Z) (iLow iHigh : Z) : pass :=
  if iHigh =? iLow then
    Return {| lowIndex := iLow; foundValue := getValue iLow =? target |}
  else
    let iMid := ceil_half (rnd (iLow + iHigh)) in
    if getValue iMid <=? target then Again iMid iHigh
    else Again iLow (rnd (iMid - 1)).

(** The [while (true)] loop, cut off after [fuel] passes; [None] means the
    loop is still running when the fuel is spent. *)
Fixpoint loop (fuel : nat) (target : Z) (getValue : Z -> Z)
         (iLow iHigh : Z) : option result :=
  match fuel with
  | O => None
  | S fuel' =>
      match body target getValue iLow iHigh with
      | Return r => Some r
      | Again iLow' iHigh' => loop fuel' target getValue iLow' iHigh'
      end
  end.

Definition bisectUnique (fuel : nat) (target : Z) (getValue : Z -> Z)
           (length : Z) : option result :=
  let iLow := 0 in
  let iHigh := rnd (length - 1) in
  if getValue iLow >? target then
    Some {| lowIndex := -1; foundValue := false |}
  else if getValue iHigh <? target then
    Some {| lowIndex := iHigh; foundValue := false |}
  else loop fuel target getValue iLow iHigh.

(** "an array of unique values that is sorted in ascending order" *)
Definition strictly_increasing (getValue : Z -> Z) (length : Z) : Prop :=
  forall i j, 0 <= i -> i < j -> j < length -> getValue i < getValue j.

(** Passes that are enough for a sequence of [length] values. *)
Definition passes (length : Z) : nat := S (Z.to_nat (Z.log2_up length)).

End Bisect.

(** ** Exceptions and mutable state

    A computation that reads and writes a state [St] and either returns a
    value or throws. The state reached when an exception is thrown is kept:
    JS does not roll back writes made before a [throw]. *)

Inductive exn :=
| Error (message : string)       (* [throw Error(message)] *)
| TypeError (message : string).  (* raised by the runtime on [undefined] *)

Inductive outcome (A : Type) :=
| Ok (a : A)
| Throw (e : exn).
Arguments Ok {A} a.
Arguments Throw {A} e.

Definition M (St A : Type) : Type := St -> outcome A * St.

#[global] Instance M_ret {St} : MRet (M St) := fun A a s => (Ok a, s).

#[global] Instance M_bind {St} : MBind (M St) := fun A B f m s =>
  match m s with
  | (Ok a, s') => f a s'
  | (Throw e, s') => (Throw e, s')
  end.

Definition throw {St A} (e : exn) : M St A := fun s => (Throw e, s).
Definition gets {St A} (f : St -> A) : M St A := fun s => (Ok (f s), s).
Definition modify {St} (f : St -> St) : M St unit := fun s => (Ok tt, f s).

(** ** Field elements and the circuit under construction

    [Field], [exists] and the two custom gates live outside the two source
    files; they are modelled as far as the gadgets use them. *)

Module Circuit.
Section WithModulus.

(** The field modulus, left open: the gadgets only need it to be large
    enough to hold the values they handle. *)
Context (p : Z).

(** Modelled from the spec: section 3, "Field value: a finite-field element
    in one of two variants - Constant (concrete integer, known at
    construction time) or Variable (symbolic handle bound to a witness at
    proof-generation time)". The class itself ([../field.js]) is missing. *)
Inductive Field :=
| Constant (value : Z)
| Var (handle : nat).

(** Modelled from the spec: [new Field(x)] for an integer [x] is the
    constant field element [x], that is [x] reduced into [[0, p)]. *)
Definition new_Field (x : Z) : Field := Constant (x mod p).

(** Modelled from the spec: section 6, [isConstant() -> bool], the tag of
    the variant. *)
Definition isConstant (x : Field) : bool :=
  match x with Constant _ => true | Var _ => false end.

(** Modelled from the spec: section 6, the custom gates [rangeCheck0] and
    [rangeCheck1] are "opaque, fixed-shape constraint-emission primitives";
    a call appends its row(s) to the constraint system. The emitters
    ([../gates.js]) are missing; a call is recorded with its arguments. *)
Inductive Gate :=
| RangeCheck0 (x : Field) (limbs12 : list Field) (crumbs : list Field)
              (isCompact : bool)
| RangeCheck1 (v2 v12 : Field) (vCurr : list Field) (vNext : list Field).

(** The circuit being built: whether witnesses are being computed
    ([proving]) or only the constraint shape is compiled, the number of
    variables handed out so far, the witness values known for them, and the
    gates emitted in program order. *)
Record state := mkState {
  proving : bool;
  next_var : nat;
  values : gmap nat Z;
  gates : list Gate;
}.

(** Modelled from the spec: [toBigInt() -> unsigned integer]. A constant
    yields its integer; a variable has a concrete value only while
    witnesses are computed. *)
Definition toBigInt (x : Field) : M state Z :=
  match x with
  | Constant v => mret v
  | Var h =>
      fun s =>
        match (if proving s then values s !! h else None) with
        | Some v => (Ok v, s)
        | None =>
            (Throw (Error "toBigInt() was called on a variable field element"), s)
        end
  end.

(** Modelled from the spec: the text [`${x}`] of a field element, which
    section 7 has the errors report: its integer in decimal. *)
Definition toString (x : Field) : M state string :=
  v ← toBigInt x; mret (pretty v).

(** The handles [Var k, ..., Var (k + n - 1)]. *)
Definition fresh (k n : nat) : list Field := Var <$> seq k n.

(** The witness store after the variables from [k] on got [vals]. *)
Definition seed (k : nat) (vals : list Z) (m : gmap nat Z) : gmap nat Z :=
  list_to_map (zip (seq k (length vals)) ((fun v => v mod p) <$> vals)) ∪ m.

(** Modelled from the spec: section 6, [exists(n, compute)] "requests [n]
    new, initially unconstrained circuit variables; [compute()] executes
    only during witness generation [...] returning [n] concrete integers
    that seed the new variables. Returns the [n] Field handles." The
    function ([./common.js]) is missing. *)
Definition exists_ (n : nat) (compute : M state (list Z))
  : M state (list Field) :=
  fun s =>
    if proving s then
      match compute s with
      | (Ok vals, s') =>
          if decide (length vals = n) then
            (Ok (fresh (next_var s') n),
             mkState (proving s') (next_var s' + n)
                     (seed (next_var s') vals (values s')) (gates s'))
          else (Throw (Error "exists: wrong number of values"), s')
      | (Throw e, s') => (Throw e, s')
      end
    else
      (Ok (fresh (next_var s) n),
       mkState (proving s) (next_var s + n) (values s) (gates s)).

Definition emit (g : Gate) : M state unit :=
  modify (fun s =>
    mkState (proving s) (next_var s) (values s) (gates s ++ [g])).

Definition Gates_rangeCheck0 (x : Field) (limbs12 crumbs : list Field)
           (isCompact : bool) : M state unit :=
  emit (RangeCheck0 x limbs12 crumbs isCompact).

Definition Gates_rangeCheck1 (v2 v12 : Field) (vCurr vNext : list Field)
  : M state unit :=
  emit (RangeCheck1 v2 v12 vCurr vNext).

End WithModulus.

End Circuit.

(** ** Range-check gadgets: [src/lib/gadgets/range-check.ts] *)

Module RangeCheck.
Import Circuit.

(** Modelled from the spec: section 4.1, "[bitSlice(x, start, length)]:
    returns the [length]-bit unsigned integer at bit offset [start] of [x].
    Total function, no side effects; bits beyond [x]'s significant range
    read as 0." The function ([./common.js]) is missing. *)
Definition bitSlice (x start length : Z) : Z :=
  Z.land (Z.shiftr x start) (Z.ones length).

(** A JS [bigint] used as a condition: true unless it is [0n]. *)
Definition truthy (x : Z) : bool := negb (x =? 0).

(** [const L = 88n], [twoL = 2n * L], [lMask = (1n << L) - 1n]. *)
Definition L : Z := 88.
Definition twoL : Z := 2 * L.
Definition lMask : Z := Z.shiftl 1 L - 1.

Definition splitCompactLimb (x01 : Z) : Z * Z :=
  (Z.land x01 lMask, Z.shiftr x01 L).

(** An array pattern that finds fewer elements than it names binds
    [undefined]; the typed code never gets there, the model stops. *)
Definition bad_tuple {A} : M state A :=
  throw (TypeError "array pattern: element is undefined").

Section WithModulus.
Context (p : Z).

#[local] Abbreviation new_Field := (Circuit.new_Field p).
#[local] Abbreviation exists_ := (Circuit.exists_ p).

Definition rangeCheck64 (x : Field) : M state (Field * Field * Field * Field) :=
  if isConstant x then
    xx ← toBigInt x;
    if xx >=? Z.shiftl 1 64 then
      sx ← toString x;
      throw (Error
        ("rangeCheck64: expected field to fit in 64 bits, got " +:+ sx))
    else
      (* returned for consistency with the provable case *)
      mret (new_Field (bitSlice xx 52 12),
            new_Field (bitSlice xx 40 12),
            new_Field (bitSlice xx 28 12),
            new_Field (bitSlice xx 16 12))
  else
    (* crumbs (2-bit limbs) *)
    crumbs ← exists_ 8 (
      xx ← toBigInt x;
      mret [bitSlice xx 0 2; bitSlice xx 2 2; bitSlice xx 4 2;
            bitSlice xx 6 2; bitSlice xx 8 2; bitSlice xx 10 2;
            bitSlice xx 12 2; bitSlice xx 14 2]);
    match crumbs with
    | [x0; x2; x4; x6; x8; x10; x12; x14] =>
        (* 12-bit limbs *)
        limbs ← exists_ 4 (
          xx ← toBigInt x;
          mret [bitSlice xx 16 12; bitSlice xx 28 12;
                bitSlice xx 40 12; bitSlice xx 52 12]);
        match limbs with
        | [x16; x28; x40; x52] =>
            Gates_rangeCheck0 x
              [new_Field 0; new_Field 0; x52; x40; x28; x16]
              [x14; x12; x10; x8; x6; x4; x2; x0]
              false;;
            mret (x52, x40, x28, x16)
        | _ => bad_tuple
        end
    | _ => bad_tuple
    end.

Definition rangeCheck0Helper (x : Field) (isCompact : bool)
  : M state (Field * Field) :=
  (* crumbs (2-bit limbs) *)
  crumbs ← exists_ 8 (
    xx ← toBigInt x;
    mret [bitSlice xx 0 2; bitSlice xx 2 2; bitSlice xx 4 2;
          bitSlice xx 6 2; bitSlice xx 8 2; bitSlice xx 10 2;
          bitSlice xx 12 2; bitSlice xx 14 2]);
  match crumbs with
  | [x0; x2; x4; x6; x8; x10; x12; x14] =>
      (* 12-bit limbs *)
      limbs ← exists_ 6 (
        xx ← toBigInt x;
        mret [bitSlice xx 16 12; bitSlice xx 28 12; bitSlice xx 40 12;
              bitSlice xx 52 12; bitSlice xx 64 12; bitSlice xx 76 12]);
      match limbs with
      | [x16; x28; x40; x52; x64; x76] =>
          Gates_rangeCheck0 x
            [x76; x64; x52; x40; x28; x16]
            [x14; x12; x10; x8; x6; x4; x2; x0]
            isCompact;;
          (* the two highest 12-bit limbs are returned *)
          mret (x64, x76)
      | _ => bad_tuple
      end
  | _ => bad_tuple
  end.

(** The argument object of [rangeCheck1Helper]. *)
Record inputs1 := mkInputs1 {
  in_x64 : Field; in_x76 : Field;
  in_y64 : Field; in_y76 : Field;
  in_z : Field; in_yz : Field;
}.

Definition rangeCheck1Helper (inputs : inputs1) : M state unit :=
  let '(mkInputs1 x64 x76 y64 y76 z yz) := inputs in
  (* create limbs for current row *)
  curr ← exists_ 13 (
    zz ← toBigInt z;
    mret [bitSlice zz 22 2; bitSlice zz 24 2; bitSlice zz 26 2;
          bitSlice zz 28 2; bitSlice zz 30 2; bitSlice zz 32 2;
          bitSlice zz 34 2; bitSlice zz 36 2; bitSlice zz 38 12;
          bitSlice zz 50 12; bitSlice zz 62 12; bitSlice zz 74 12;
          bitSlice zz 86 2]);
  match curr with
  | [z22; z24; z26; z28; z30; z32; z34; z36; z38; z50; z62; z74; z86] =>
      (* create limbs for next row *)
      next ← exists_ 11 (
        zz ← toBigInt z;
        mret [bitSlice zz 0 2; bitSlice zz 2 2; bitSlice zz 4 2;
              bitSlice zz 6 2; bitSlice zz 8 2; bitSlice zz 10 2;
              bitSlice zz 12 2; bitSlice zz 14 2; bitSlice zz 16 2;
              bitSlice zz 18 2; bitSlice zz 20 2]);
      match next with
      | [z0; z2; z4; z6; z8; z10; z12; z14; z16; z18; z20] =>
          Gates_rangeCheck1 z yz
            [z86; z74; z62; z50; z38; z36; z34; z32; z30; z28; z26; z24; z22]
            [z20; z18; z16; x76; x64; y76; y64; z14; z12; z10; z8; z6; z4;
             z2; z0]
      | _ => bad_tuple
      end
  | _ => bad_tuple
  end.

(** [a || b || c] on three [bigint] shifts: evaluated left to right, the
    first truthy one decides. *)
Definition multiRangeCheck (xyz : Field * Field * Field) : M state unit :=
  let '(x, y, z) := xyz in
  if isConstant x && isConstant y && isConstant z then
    tooBig ← (xv ← toBigInt x;
              if truthy (Z.shiftr xv L) then mret true
              else yv ← toBigInt y;
                   if truthy (Z.shiftr yv L) then mret true
                   else zv ← toBigInt z; mret (truthy (Z.shiftr zv L)));
    if tooBig : bool then
      sx ← toString x; sy ← toString y; sz ← toString z;
      throw (Error ("Expected fields to fit in " +:+ pretty L +:+
                    " bits, got " +:+ sx +:+ ", " +:+ sy +:+ ", " +:+ sz))
    else mret tt
  else
    '(x64, x76) ← rangeCheck0Helper x false;
    '(y64, y76) ← rangeCheck0Helper y false;
    rangeCheck1Helper (mkInputs1 x64 x76 y64 y76 z (new_Field 0)).

Definition compactMultiRangeCheck (xy z : Field)
  : M state (Field * Field * Field) :=
  (* constant case *)
  if isConstant xy && isConstant z then
    tooBig ← (xyv ← toBigInt xy;
              if truthy (Z.shiftr xyv twoL) then mret true
              else zv ← toBigInt z; mret (truthy (Z.shiftr zv L)));
    if tooBig : bool then
      sxy ← toString xy; sz ← toString z;
      throw (Error ("Expected fields to fit in " +:+ pretty twoL +:+
                    " and " +:+ pretty L +:+
                    " bits respectively, got " +:+ sxy +:+ ", " +:+ sz))
    else
      xyv ← toBigInt xy;
      let '(x, y) := splitCompactLimb xyv in
      mret (new_Field x, new_Field y, z)
  else
    xy_limbs ← exists_ 2 (
      xyv ← toBigInt xy;
      let '(x, y) := splitCompactLimb xyv in mret [x; y]);
    match xy_limbs with
    | [x; y] =>
        '(z64, z76) ← rangeCheck0Helper z false;
        '(x64, x76) ← rangeCheck0Helper x true;
        rangeCheck1Helper (mkInputs1 z64 z76 x64 x76 y xy);;
        mret (x, y, z)
    | _ => bad_tuple
    end.

End WithModulus.
End RangeCheck.

(** ** Indexed Merkle map: [src/lib/provable/merkle-tree-indexed.ts] *)

Module MerkleMap.
Import Circuit.

(** A JS array of [bigint]: its [length] and its elements. Reading a
    position that holds nothing gives [undefined] ([None]); writing at or
    beyond [length] extends the array. *)
Record JsArray := mkArray { arr_length : nat; arr_elems : gmap nat Z }.

Definition arr_get (a : JsArray) (i : nat) : option Z := arr_elems a !! i.

Definition arr_set (a : JsArray) (i : nat) (v : Z) : JsArray :=
  {| arr_length := Nat.max (arr_length a) (S i);
     arr_elems := <[i := v]> (arr_elems a) |}.

(** [const emptyNodes = [0n]] *)
Definition emptyNodes_init : JsArray :=
  {| arr_length := 1; arr_elems := {[ 0%nat := 0 ]} |}.

(** [LeafValue]: the plain values of a [Leaf]. *)
Record LeafValue := mkLeaf {
  key : Z; value : Z; nextKey : Z; nextIndex : Z;
}.

(** The object held in [data]. A row of [nodes] is a sparse array of
    hashes: a finite map from positions to [bigint]s. *)
Record MapData := mkData {
  leaves : list LeafValue;
  nodes : list (gmap Z Z);
  lowNodes : list LeafValue;
}.

(** An [IndexedMerkleMap] object. A field that was never assigned reads
    as [undefined], which is [None] for [height]. *)
Record IndexedMerkleMap := mkMap {
  root : Field;
  length : Field;
  height : option nat;
  data : MapData;
}.

(** What a method sees: the module-level [emptyNodes] and [this]. *)
Record world := mkWorld {
  emptyNodes : JsArray;
  this : IndexedMerkleMap;
}.

(** [nodes[level]?.[index]] *)
Definition node_at (w : world) (level : nat) (index : Z) : option Z :=
  nodes (data (this w)) !! level ≫= (.!! index).

Definition set_nodes (f : list (gmap Z Z) -> list (gmap Z Z)) (w : world)
  : world :=
  let m := this w in
  let d := data m in
  mkWorld (emptyNodes w)
    (mkMap (root m) (length m) (height m)
       (mkData (leaves d) (f (nodes d)) (lowNodes d))).

(** Run a computation on [emptyNodes] alone inside a method. *)
Definition on_emptyNodes {A} (c : M JsArray A) : M world A :=
  fun w => let '(r, a) := c (emptyNodes w) in (r, mkWorld a (this w)).

Section WithHash.

(** The field modulus and the hash [PoseidonBigint.hash]
    ([bindings/crypto/poseidon.js]), both defined outside the source
    file. *)
Context (p : Z) (hash : list Z -> Z).

#[local] Abbreviation new_Field := (Circuit.new_Field p).

(** Modelled from the spec: section 6, the hash is "a pure function
    mapping a sequence of field integers to one field integer". Where an
    element is [undefined] there is no integer to compute on, and the
    runtime raises. *)
Definition PoseidonBigint_hash {St} (xs : list (option Z)) : M St Z :=
  match mapM id xs with
  | Some vs => mret (hash vs)
  | None => throw (TypeError "cannot use undefined as a bigint")
  end.

(** Modelled from the spec: [Field(x)] is the constant field element
    [x]; there is none for [undefined], and the runtime raises. *)
Definition Field_of {St} (x : option Z) : M St Field :=
  match x with
  | Some v => mret (new_Field v)
  | None => throw (TypeError "cannot convert undefined to a bigint")
  end.

(** The [for] loop of [empty], with [k] passes left and loop variable [i]. *)
Fixpoint empty_loop (k i : nat) : M JsArray unit :=
  match k with
  | O => mret tt
  | S k' =>
      zero ← gets (fun a => match i with
                            | O => None (* [emptyNodes[-1]] *)
                            | S j => arr_get a j
                            end);
      h ← PoseidonBigint_hash [zero; zero];
      modify (fun a => arr_set a i h);;
      empty_loop k' (S i)
  end.

(** [for (let i = emptyNodes.length; i <= level; i++)] makes
    [level + 1 - emptyNodes.length] passes. *)
Definition empty (level : nat) : M JsArray (option Z) :=
  len ← gets arr_length;
  empty_loop (S level - len) len;;
  gets (fun a => arr_get a level).

(** [new IndexedMerkleMap(height)]. For [height = 0] the call
    [empty(height - 1)] is [empty(-1)]: no pass of the loop, and the read
    [emptyNodes[-1]] gives [undefined]. The constructor assigns [root],
    [length] and [data], and nothing else. *)
Definition constructor (height : nat) : M JsArray IndexedMerkleMap :=
  e ← match height with
      | O => mret None
      | S top => empty top
      end;
  root ← Field_of e;
  let nodes := replicate height (∅ : gmap Z Z) in
  let length := new_Field 0 in
  let leaves := [] in
  let lowNodes := [] in
  mret {| root := root; length := length; height := None;
          data := {| leaves := leaves; lowNodes := lowNodes;
                     nodes := nodes |} |}.

(** [nodes[level][index] = v]; there is no row to write to when
    [nodes[level]] is [undefined]. *)
Definition write_node (level : nat) (index : Z) (v : Z) : M world unit :=
  row ← gets (fun w => nodes (data (this w)) !! level);
  match row with
  | Some r => modify (set_nodes (fun ns => <[level := <[index := v]> r]> ns))
  | None => throw (TypeError "cannot set properties of undefined")
  end.

Definition getNode (level : nat) (index : Z) (nonEmpty : bool)
  : M world (option Z) :=
  node ← gets (fun w => node_at w level index);
  match node with
  | Some v => mret (Some v)
  | None =>
      if nonEmpty then
        throw (Error ("node at level=" +:+ pretty level +:+ ", index=" +:+
                      pretty index +:+
                      " was expected to be known, but isn't."))
      else on_emptyNodes (empty level)
  end.

(** The [for] loop of [setLeafNode], with [k] passes left. On a number
    that holds an integer, [Math.floor(index / 2)], [index * 2] and
    [index % 2] are exact; [index * 2 + 1] rounds. *)
Fixpoint setLeafNode_loop (k level : nat) (index : Z) (isLeft : bool)
  : M world unit :=
  match k with
  | O => mret tt
  | S k' =>
      let index := index / 2 in
      left ← getNode (level - 1) (index * 2) isLeft;
      right ← getNode (level - 1) (Number.rnd (index * 2 + 1)) (negb isLeft);
      h ← PoseidonBigint_hash [left; right];
      write_node level index h;;
      let isLeft := Z.rem index 2 =? 0 in
      setLeafNode_loop k' (S level) index isLeft
  end.

(** [for (let level = 1; level < this.height; level++)]: [height - 1]
    passes; none when [this.height] is [undefined], as [1 < undefined] is
    false. *)
Definition setLeafNode (index : Z) (leaf : Z) : M world unit :=
  write_node 0 index leaf;;
  let isLeft := Z.rem index 2 =? 0 in
  h ← gets (fun w => height (this w));
  let passes := match h with Some h => (h - 1)%nat | None => O end in
  setLeafNode_loop passes 1 index isLeft.

End WithHash.
End MerkleMap.

(** ** Vocabulary of the statements *)

Module Vocabulary.
Import Circuit.

(** The value of [x] can be read in state [s]: [x] is a constant, or the
    shape is being compiled (no value is ever read), or the witness store
    holds a value for the variable. *)
Definition known (s : state) (x : Field) : Prop :=
  match x with
  | Constant _ => True
  | Var h => proving s = true -> is_Some (values s !! h)
  end.

(** The row [rangeCheck0Helper] emits for [x] when it starts with [k]
    variables handed out: crumbs are [Var k .. Var (k+7)], twelve-bit limbs
    [Var (k+8) .. Var (k+13)], both listed from the highest bits down. *)
Definition row0 (x : Field) (k : nat) (isCompact : bool) : Gate :=
  RangeCheck0 x (rev (fresh (k + 8) 6)) (rev (fresh k 8)) isCompact.

(** The rows [rangeCheck1Helper] emits when it starts with [k] variables
    handed out: the limbs of the current row are [Var k .. Var (k+12)], the
    crumbs of the next row [Var (k+13) .. Var (k+23)]; the four carried
    limbs sit between the three highest and the eight lowest crumbs. *)
Definition row1 (x64 x76 y64 y76 z yz : Field) (k : nat) : Gate :=
  let next := fresh (k + 13) 11 in
  RangeCheck1 z yz (rev (fresh k 13))
    (rev (drop 8 next) ++ [x76; x64; y76; y64] ++ rev (take 8 next)).

(** [s'] is [s] after [n] more variables were handed out and the gates
    [gs] were emitted; no witness value was lost. *)
Definition advanced (n : nat) (gs : list Gate) (s s' : state) : Prop :=
  proving s' = proving s /\
  next_var s' = (next_var s + n)%nat /\
  gates s' = gates s ++ gs /\
  (forall h, is_Some (values s !! h) -> is_Some (values s' !! h)).

Section TreeVocabulary.
Import MerkleMap.
Context (hash : list Z -> Z).

(** The canonical hash of an empty subtree, by its recurrence. *)
Fixpoint canonical_empty (level : nat) : Z :=
  match level with
  | O => 0
  | S below => hash [canonical_empty below; canonical_empty below]
  end.

(** The states [emptyNodes] can be in: as initialised, or after a call of
    [empty] from such a state. *)
Inductive reachable : JsArray -> Prop :=
| reachable_init : reachable emptyNodes_init
| reachable_empty (level : nat) (a : JsArray) :
    reachable a -> reachable (snd (empty hash level a)).

(** Every filled position of [emptyNodes] holds the canonical hash. *)
Definition cache_ok (a : JsArray) : Prop :=
  (1 <= arr_length a)%nat /\
  forall i, (i < arr_length a)%nat -> arr_get a i = Some (canonical_empty i).

(** What a read of the node cache stands for: the entry, or the canonical
    empty hash of the level when there is none. *)
Definition node_value (w : world) (level : nat) (index : Z) : Z :=
  default (canonical_empty level) (node_at w level index).

End TreeVocabulary.

(** [w'] is [w] up to the contents of [nodes] and of [emptyNodes]. *)
Definition same_fields (w w' : MerkleMap.world) : Prop :=
  let m := MerkleMap.this w in
  let m' := MerkleMap.this w' in
  MerkleMap.root m' = MerkleMap.root m /\
  MerkleMap.length m' = MerkleMap.length m /\
  MerkleMap.height m' = MerkleMap.height m /\
  MerkleMap.leaves (MerkleMap.data m') = MerkleMap.leaves (MerkleMap.data m) /\
  MerkleMap.lowNodes (MerkleMap.data m')
  = MerkleMap.lowNodes (MerkleMap.data m) /\
  Datatypes.length (MerkleMap.nodes (MerkleMap.data m'))
  = Datatypes.length (MerkleMap.nodes (MerkleMap.data m)).

(** The position, [d] levels up, of the ancestor of position [i]: the
    loop of [setLeafNode] halves [index] once per level. *)
Fixpoint ancestor (d : nat) (i : Z) : Z :=
  match d with
  | O => i
  | S d' => ancestor d' (i / 2)
  end.

(** The Pallas base-field modulus, a modulus to run the gadgets with. *)
Definition pallas : Z :=
  28948022309329048855892746252171976963363056481941560715954676764349967630337.

(** A small stand-in for the hash, to run the tree code on examples. *)
Definition toy_hash (xs : list Z) : Z :=
  foldl (fun acc x => 31 * acc + x + 1) 7 xs.

(** [setLeafNode(index, leaf)] as section 4.9 of the specification words
    it, on a map built with height [H]: it returns normally; the level-0
    entry at [index] is [leaf]; the entry of every ancestor of [index] is
    the hash of what [getNode] returns for its two children; and [root] is
    the field element of the topmost hash of the path. *)
Definition setLeafNode_as_stated (p : Z) (hash : list Z -> Z) (H : nat)
           (w : MerkleMap.world) (index leaf : Z) : Prop :=
  exists w',
    MerkleMap.setLeafNode hash index leaf w = (Ok tt, w') /\
    MerkleMap.node_at w' 0 index = Some leaf /\
    (forall lev, (1 <= lev < H)%nat ->
       let i := ancestor lev index in
       let isLeft := Z.rem (ancestor (lev - 1) index) 2 =? 0 in
       exists left right : Z,
         fst (MerkleMap.getNode hash (lev - 1) (i * 2) isLeft w')
         = Ok (Some left) /\
         fst (MerkleMap.getNode hash (lev - 1) (i * 2 + 1) (negb isLeft) w')
         = Ok (Some right) /\
         MerkleMap.node_at w' lev i = Some (hash [left; right])) /\
    MerkleMap.root (MerkleMap.this w')
    = Circuit.new_Field p
        (node_value hash w' (H - 1) (ancestor (H - 1) index)).

(** Sample inputs to run the code on. *)

(** An accessor to the sorted values [1, 4, 7, 10, 13] at positions
    [0 .. 4]. *)
Definition sample_values (i : Z) : Z := 3 * i + 1.

(** A circuit in witness computation, with one variable of value [7]. *)
Definition sample_circuit : Circuit.state :=
  Circuit.mkState true 1 {[ 0%nat := 7 ]} [].

(** A map of height 3 with its [height] field filled in and the root of
    the empty tree, holding one leaf hash, [5] at position [2], and
    nothing above it yet. *)
Definition sample_world : MerkleMap.world :=
  MerkleMap.mkWorld MerkleMap.emptyNodes_init
    (MerkleMap.mkMap (Constant (canonical_empty toy_hash 2)) (Constant 0)
       (Some 3%nat)
       (MerkleMap.mkData [] [ {[ 2 := 5 ]}; ∅; ∅ ] [])).

(** *** Limbs and witnesses *)

(** The value limbs stand for, lowest limb first: limb [i] has
    [widths[i]] bits and sits above the limbs before it. *)
Fixpoint pack (widths limbs : list Z) : Z :=
  match widths, limbs with
  | w :: widths', l :: limbs' => l + 2 ^ w * pack widths' limbs'
  | _, _ => 0
  end.

(** The slices of [v] of the given widths, from bit [start] upwards. *)
Fixpoint slices (v start : Z) (widths : list Z) : list Z :=
  match widths with
  | [] => []
  | w :: widths' => RangeCheck.bitSlice v start w :: slices v (start + w) widths'
  end.

(** The witness values of the variables [Var k .. Var (k + n - 1)]. *)
Definition witness_of (s : state) (k n : nat) : list (option Z) :=
  (fun h => values s !! h) <$> seq k n.

(** [x] is a constant, or a variable that was handed out already. *)
Definition allocated (s : state) (x : Field) : Prop :=
  match x with
  | Constant _ => True
  | Var h => (h < next_var s)%nat
  end.

(** Eight crumbs, then [n] twelve-bit limbs. *)
Definition crumbs_limbs (n : nat) : list Z := replicate 8 2 ++ replicate n 12.

(** The limbs [rangeCheck1Helper] cuts [z] into, from bit 0 upwards:
    eleven crumbs for the next row; then, for the current row, eight
    crumbs, four twelve-bit limbs and a last crumb. *)
Definition widths1_next : list Z := replicate 11 2.
Definition widths1_curr : list Z := replicate 8 2 ++ replicate 4 12 ++ [2].

(** [s'] is [s] after [n] more variables were handed out and the gates
    [gs] were emitted: the witnesses of the variables handed out before
    are as they were, and while witnesses are computed every new variable
    has one. *)
Definition grown (n : nat) (gs : list Gate) (s s' : state) : Prop :=
  advanced n gs s s' /\
  (forall h, (h < next_var s)%nat -> values s' !! h = values s !! h) /\
  (proving s = true ->
   forall h, (next_var s <= h < next_var s + n)%nat ->
             is_Some (values s' !! h)).

(** *** The low-node search, pass by pass *)

(** The bounds the loop of [bisectUnique] holds after [k] passes, if it
    has not returned by then. *)
Fixpoint after_passes (k : nat) (target : Z) (getValue : Z -> Z)
         (iLow iHigh : Z) : option (Z * Z) :=
  match k with
  | O => Some (iLow, iHigh)
  | S k' =>
      match Bisect.body target getValue iLow iHigh with
      | Bisect.Return _ => None
      | Bisect.Again iLow' iHigh' =>
          after_passes k' target getValue iLow' iHigh'
      end
  end.


(** The sequence whose value at every position is the position. *)
Definition positions (i : Z) : Z := i.

(** *** Linear search *)

(** The largest position below [n] whose value is at most [t], found by
    looking at every position from [n - 1] down; [-1] if there is none. *)
Fixpoint scan_down (n : nat) (getValue : Z -> Z) (t : Z) : Z :=
  match n with
  | O => -1
  | S n' => if getValue (Z.of_nat n') <=? t then Z.of_nat n'
            else scan_down n' getValue t
  end.

Definition linear_search (t : Z) (getValue : Z -> Z) (n : Z) : Bisect.result :=
  let i := scan_down (Z.to_nat n) getValue t in
  Bisect.mkResult i ((0 <=? i) && (getValue i =? t)).

(** *** The tree behind the node cache *)

Section TreeModel.
Import MerkleMap.
Context (hash : list Z -> Z).

(** The hash of the subtree rooted at position [j] of level [lev],
    computed from scratch from the leaf row: a position without a leaf
    hash counts as the zero leaf. *)
Fixpoint merkle (row0 : gmap Z Z) (lev : nat) (j : Z) : Z :=
  match lev with
  | O => default 0 (row0 !! j)
  | S below =>
      hash [merkle row0 below (j * 2); merkle row0 below (j * 2 + 1)]
  end.

(** The leaf row of a map. *)
Definition leaf_row (w : world) : gmap Z Z :=
  default ∅ (nodes (data (this w)) !! 0%nat).

(** The node cache of a map is in order: [nodes] has [H] rows; every
    cached node above the leaf row is the hash of what the cache stands
    for at its two children; and the parent of every cached node below
    the top row is cached. *)
Definition cache_in_order (H : nat) (w : world) : Prop :=
  Datatypes.length (nodes (data (this w))) = H /\
  (forall lev j v, (1 <= lev)%nat ->
     node_at w lev j = Some v ->
     v = hash [node_value hash w (lev - 1) (j * 2);
               node_value hash w (lev - 1) (j * 2 + 1)]) /\
  (forall lev j, (S lev < H)%nat ->
     is_Some (node_at w lev j) -> is_Some (node_at w (S lev) (j / 2))).

End TreeModel.

(** A map of height 3 with its [height] field filled in and nothing in
    its cache. *)
Definition blank_world : MerkleMap.world :=
  MerkleMap.mkWorld MerkleMap.emptyNodes_init
    (MerkleMap.mkMap (Constant (canonical_empty toy_hash 2)) (Constant 0)
       (Some 3%nat)
       (MerkleMap.mkData [] (replicate 3 ∅) [])).

(** The blank map after [setLeafNode(2, 5)]: leaf 2 and its two
    ancestors are cached. *)
Definition planted_world : MerkleMap.world :=
  snd (MerkleMap.setLeafNode toy_hash 2 5 blank_world).

(** The values [1, 4, 7, 10, 13] again, with junk outside positions
    [0 .. 4]. *)
Definition sample_values_junk (i : Z) : Z :=
  if (0 <=? i) && (i <? 5) then 3 * i + 1 else 1000 - i.

End Vocabulary.

(* ===================================================================== *)
(** * Part II: properties                                                 *)
(* ===================================================================== *)

Module NumberFacts.
Import Number.

(** Integers up to [2^53] in magnitude are binary64 numbers: arithmetic
    whose exact result is one of them does not round. *)
Lemma rnd_exact (x : Z) : - 2 ^ 53 <= x <= 2 ^ 53 -> rnd x = x.
Proof.
  intros Hx. unfold rnd.
  destruct (Z.leb_spec (Z.abs x) (2 ^ 53)); [done | lia].
Qed.

End NumberFacts.

Module BisectFacts.
Import Number Bisect NumberFacts.

Lemma ceil_half_bounds (lo hi : Z) :
  lo < hi -> lo < ceil_half (lo + hi) <= hi.
Proof. unfold ceil_half. intros Hlt. Z.div_mod_to_equations. lia. Qed.

(** One pass on bounds within [0 .. 2^52], where the sum of the bounds
    does not round, either returns or leaves a strictly smaller, still
    non-empty interval inside the old one; the new width is at most half
    the old. *)
Lemma body_shrinks (target : Z) (getValue : Z -> Z) (iLow iHigh : Z) :
  0 <= iLow -> iLow <= iHigh -> iHigh <= 2 ^ 52 ->
  match body target getValue iLow iHigh with
  | Return r =>
      iHigh = iLow /\ r = mkResult iLow (getValue iLow =? target)
  | Again iLow' iHigh' =>
      iLow < iHigh /\
      iLow <= iLow' /\ iLow' <= iHigh' /\ iHigh' <= iHigh /\
      iHigh' - iLow' < iHigh - iLow /\
      2 * (iHigh' - iLow') <= iHigh - iLow /\
      ((iLow' = ceil_half (iLow + iHigh) /\ iHigh' = iHigh /\
        getValue iLow' <= target) \/
       (iLow' = iLow /\ iHigh' = ceil_half (iLow + iHigh) - 1 /\
        target < getValue (iHigh' + 1)))
  end.
Proof.
  intros H0 Hle H52. unfold body.
  destruct (Z.eqb_spec iHigh iLow) as [->|Hne]; [by split|].
  assert (Hlt : iLow < iHigh) by lia.
  pose proof (ceil_half_bounds _ _ Hlt) as Hmid.
  assert (Hhalf : 2 * ceil_half (iLow + iHigh) - 1 <= iLow + iHigh
                  /\ iLow + iHigh <= 2 * ceil_half (iLow + iHigh)).
  { unfold ceil_half. Z.div_mod_to_equations. lia. }
  rewrite (rnd_exact (iLow + iHigh)) by lia.
  rewrite (rnd_exact (ceil_half (iLow + iHigh) - 1)) by lia.
  destruct (Z.leb_spec (getValue (ceil_half (iLow + iHigh))) target).
  - repeat split; lia.
  - replace (ceil_half (iLow + iHigh) - 1 + 1)
      with (ceil_half (iLow + iHigh)) by lia.
    repeat split; lia.
Qed.

Lemma loop_more_fuel (fuel fuel' : nat) target getValue iLow iHigh r :
  loop fuel target getValue iLow iHigh = Some r ->
  (fuel <= fuel')%nat ->
  loop fuel' target getValue iLow iHigh = Some r.
Proof.
  revert fuel' iLow iHigh.
  induction fuel as [|fuel IH]; intros fuel' iLow iHigh Hrun Hle; [done|].
  destruct fuel' as [|fuel']; [lia|].
  simpl in *. destruct (body target getValue iLow iHigh); [done|].
  apply IH; [done | lia].
Qed.

(** An interval of width below [2^k] is settled within [k + 1] passes. *)
Lemma loop_returns (k : nat) target getValue iLow iHigh :
  0 <= iLow -> iHigh <= 2 ^ 52 ->
  0 <= iHigh - iLow < 2 ^ Z.of_nat k ->
  is_Some (loop (S k) target getValue iLow iHigh).
Proof.
  revert iLow iHigh. induction k as [|k IH]; intros iLow iHigh H0 H52 Hw.
  - simpl. unfold body.
    replace iHigh with iLow by (change (2 ^ Z.of_nat 0) with 1 in Hw; lia).
    by rewrite Z.eqb_refl.
  - pose proof (body_shrinks target getValue iLow iHigh
                  H0 ltac:(lia) H52) as Hb.
    cbn [loop].
    destruct (body target getValue iLow iHigh) as [r|lo' hi']; [done|].
    rewrite Nat2Z.inj_succ, Z.pow_succ_r in Hw by lia.
    apply IH; lia.
Qed.

(** What the loop returns when started inside its invariant
    [0 <= iLow <= lowIndex <= iHigh < length]. *)
Lemma loop_sound (fuel : nat) target getValue n iLow iHigh r :
  n <= 2 ^ 52 + 1 ->
  0 <= iLow -> iLow <= iHigh -> iHigh < n ->
  getValue iLow <= target ->
  (iHigh = n - 1 \/ target < getValue (iHigh + 1)) ->
  loop fuel target getValue iLow iHigh = Some r ->
  iLow <= lowIndex r <= iHigh /\
  getValue (lowIndex r) <= target /\
  (lowIndex r = n - 1 \/ target < getValue (lowIndex r + 1)) /\
  (foundValue r = true <-> getValue (lowIndex r) = target).
Proof.
  intros Hbound. revert iLow iHigh.
  induction fuel as [|fuel IH]; intros iLow iHigh H0 Hle Hn Hlow Hhigh Hrun;
    [done|].
  simpl in Hrun.
  pose proof (body_shrinks target getValue iLow iHigh
                H0 Hle ltac:(lia)) as Hb.
  destruct (body target getValue iLow iHigh) as [r'|lo' hi'].
  - destruct Hb as [-> ->]. injection Hrun as <-. simpl.
    rewrite Z.eqb_eq. repeat split; try lia; done.
  - destruct Hb as (_ & ? & ? & ? & _ & _ & Hcase).
    assert (Hgoal : lo' <= lowIndex r <= hi' /\
      getValue (lowIndex r) <= target /\
      (lowIndex r = n - 1 \/ target < getValue (lowIndex r + 1)) /\
      (foundValue r = true <-> getValue (lowIndex r) = target)).
    { destruct Hcase as [(-> & -> & ?) | (-> & Hhi & ?)].
      - apply IH; first [lia | done].
      - apply IH; first [lia | done]. }
    destruct Hgoal as (? & ? & ? & ?). split; [lia | done].
Qed.

Lemma passes_enough (n : Z) : 1 <= n -> n - 1 < 2 ^ Z.of_nat (Z.to_nat (Z.log2_up n)).
Proof.
  intros Hn. rewrite Z2Nat.id by apply Z.log2_up_nonneg.
  assert (n <= 2 ^ Z.log2_up n); [|lia].
  apply Z.log2_up_le_pow2; lia.
Qed.

(** A loop whose pass hands back the bounds it was given never returns. *)
Lemma loop_stuck (fuel : nat) target getValue iLow iHigh :
  body target getValue iLow iHigh = Again iLow iHigh ->
  loop fuel target getValue iLow iHigh = None.
Proof.
  intros Hb. induction fuel as [|fuel IH]; [done|].
  simpl. by rewrite Hb.
Qed.

(** A loop that reaches, after some passes, bounds from which it never
    returns, never returns. *)
Lemma loop_after_passes (k : nat) target getValue :
  forall iLow iHigh iLow' iHigh',
    Vocabulary.after_passes k target getValue iLow iHigh
    = Some (iLow', iHigh') ->
    (forall fuel, loop fuel target getValue iLow' iHigh' = None) ->
    forall fuel, loop fuel target getValue iLow iHigh = None.
Proof.
  induction k as [|k IH]; intros iLow iHigh iLow' iHigh' Hk Hnone fuel.
  - injection Hk as <- <-. apply Hnone.
  - destruct fuel as [|fuel]; [done|]. simpl in *.
    destruct (body target getValue iLow iHigh) as [r|lo1 hi1]; [done|].
    by apply (IH lo1 hi1 iLow' iHigh').
Qed.


(** C5, as the code has it. [bisectUnique] terminates on every sequence of
    length [n] with [1 <= n <= 2^52 + 1], strictly increasing or not. A
    pass of the loop on bounds [0 <= iLow <= iHigh <= 2^52], whose sum
    does not round, returns only when [iHigh = iLow], and otherwise goes
    on with bounds inside the old ones and strictly closer to each other;
    with the ceiling midpoint, the two-element interval
    [iLow + 1 = iHigh] shrinks to one element in one pass. The search is
    over within [passes n = ceil(log2 n) + 1] passes. *)
Theorem bisectUnique_terminates (getValue : Z -> Z) (n t : Z) :
  1 <= n -> n <= 2 ^ 52 + 1 ->
  (forall iLow iHigh, 0 <= iLow -> iLow <= iHigh -> iHigh <= 2 ^ 52 ->
     match body t getValue iLow iHigh with
     | Return _ => iHigh = iLow
     | Again iLow' iHigh' =>
         iLow <= iLow' /\ iLow' <= iHigh' /\ iHigh' <= iHigh /\
         iHigh' - iLow' < iHigh - iLow
     end) /\
  (forall iLow, 0 <= iLow -> iLow + 1 <= 2 ^ 52 ->
     body t getValue iLow (iLow + 1)
     = if getValue (iLow + 1) <=? t then Again (iLow + 1) (iLow + 1)
       else Again iLow iLow) /\
  (forall fuel, (passes n <= fuel)%nat ->
                is_Some (bisectUnique fuel t getValue n)) /\
  Z.of_nat (passes n) = Z.log2_up n + 1.
Proof.
  intros Hn Hbound. split; [|split; [|split]].
  - intros iLow iHigh H0 Hle H52.
    pose proof (body_shrinks t getValue iLow iHigh H0 Hle H52) as Hb.
    destruct (body t getValue iLow iHigh); [apply Hb|].
    destruct Hb as (_ & ? & ? & ? & ? & _). done.
  - intros iLow H0 H52. unfold body.
    destruct (Z.eqb_spec (iLow + 1) iLow); [lia|].
    assert (Hmid : ceil_half (iLow + (iLow + 1)) = iLow + 1).
    { unfold ceil_half. Z.div_mod_to_equations. lia. }
    rewrite (rnd_exact (iLow + (iLow + 1))) by lia.
    rewrite Hmid. rewrite (rnd_exact (iLow + 1 - 1)) by lia.
    by replace (iLow + 1 - 1) with iLow by lia.
  - intros fuel Hfuel. unfold bisectUnique.
    rewrite (rnd_exact (n - 1)) by lia.
    destruct (getValue 0 >? t); [done|].
    destruct (getValue (n - 1) <? t); [done|].
    destruct (loop_returns (Z.to_nat (Z.log2_up n)) t getValue 0 (n - 1))
      as [r Hr]; [lia | lia | |].
    { pose proof (passes_enough n Hn). lia. }
    exists r. by apply loop_more_fuel with (fuel := passes n).
  - unfold passes. rewrite Nat2Z.inj_succ, Z2Nat.id; [lia|].
    apply Z.log2_up_nonneg.
Qed.

End BisectFacts.

Module RangeCheckFacts.
Import Circuit RangeCheck Vocabulary.

Lemma bitSlice_range (x start len : Z) :
  0 <= len -> 0 <= bitSlice x start len < 2 ^ len.
Proof.
  intros Hlen. unfold bitSlice. rewrite Z.land_ones by done.
  apply Z.mod_pos_bound. by apply Z.pow_pos_nonneg.
Qed.

(** [bitSlice] as arithmetic: drop [start] bits, keep [len]. *)
Lemma bitSlice_div_mod (x start len : Z) :
  0 <= start -> 0 <= len ->
  bitSlice x start len = (x / 2 ^ start) mod 2 ^ len.
Proof.
  intros Hs Hl. unfold bitSlice.
  by rewrite Z.land_ones, Z.shiftr_div_pow2.
Qed.

Lemma new_Field_small (p v : Z) : 0 <= v < p -> new_Field p v = Constant v.
Proof. intros Hv. unfold new_Field. by rewrite Z.mod_small. Qed.

Lemma truthy_shiftr (v n : Z) :
  0 <= v -> 0 <= n -> truthy (Z.shiftr v n) = bool_decide (2 ^ n <= v).
Proof.
  intros Hv Hn. unfold truthy. rewrite Z.shiftr_div_pow2 by done.
  assert (Hpos : 0 < 2 ^ n) by (by apply Z.pow_pos_nonneg).
  case_bool_decide as Hd.
  - apply negb_true_iff, Z.eqb_neq.
    assert (1 <= v / 2 ^ n); [|lia].
    apply Z.div_le_lower_bound; lia.
  - apply negb_false_iff, Z.eqb_eq, Z.div_small. lia.
Qed.

Lemma pretty_L : pretty L = "88".
Proof. reflexivity. Qed.

Lemma pretty_twoL : pretty twoL = "176".
Proof. reflexivity. Qed.

(** C3. For a constant field element of value [v] (the modulus holding at
    least twelve bits): if [v < 2^64], [rangeCheck64] returns the four
    constants [bitSlice(v,52,12)], [bitSlice(v,40,12)], [bitSlice(v,28,12)],
    [bitSlice(v,16,12)], in this order, and touches nothing; if
    [v >= 2^64], it throws the error whose message ends with the decimal
    text of [v]. *)
Theorem rangeCheck64_constant (p v : Z) (s : state) :
  2 ^ 12 <= p ->
  (v < 2 ^ 64 ->
   rangeCheck64 p (Constant v) s =
     (Ok (Constant (bitSlice v 52 12), Constant (bitSlice v 40 12),
          Constant (bitSlice v 28 12), Constant (bitSlice v 16 12)), s)) /\
  (2 ^ 64 <= v ->
   rangeCheck64 p (Constant v) s =
     (Throw (Error ("rangeCheck64: expected field to fit in 64 bits, got "
                    +:+ pretty v)), s)).
Proof.
  intros Hp.
  assert (Hsl : forall a, new_Field p (bitSlice v a 12)
                          = Constant (bitSlice v a 12)).
  { intros a. apply new_Field_small.
    pose proof (bitSlice_range v a 12 ltac:(lia)). lia. }
  unfold rangeCheck64. cbn [isConstant toBigInt].
  unfold mbind, M_bind, mret, M_ret.
  change (Z.shiftl 1 64) with (2 ^ 64).
  split; intros Hv.
  - destruct (Z.geb_spec v (2 ^ 64)) as [|_]; [lia|].
    by rewrite !Hsl.
  - destruct (Z.geb_spec v (2 ^ 64)) as [_|]; [|lia].
    reflexivity.
Qed.

Lemma splitCompactLimb_pack (x y : Z) :
  0 <= x < 2 ^ 88 -> 0 <= y ->
  splitCompactLimb (x + y * 2 ^ 88) = (x, y).
Proof.
  intros Hx Hy. unfold splitCompactLimb, lMask, L.
  change (Z.shiftl 1 88 - 1) with (Z.ones 88).
  rewrite Z.land_ones, Z.shiftr_div_pow2 by lia.
  f_equal.
  - rewrite Z.mod_add by lia. apply Z.mod_small. lia.
  - rewrite Z.div_add by lia. rewrite Z.div_small by lia. lia.
Qed.

(** C4. Round trip: for [x], [y], [z] in [[0, 2^88)] (and a modulus that
    holds 176 bits), [compactMultiRangeCheck] on the constants
    [x + y * 2^88] and [z] returns normally, with exactly the constants
    [x], [y], [z], and touches nothing. *)
Theorem compactMultiRangeCheck_roundtrip (p x y z : Z) (s : state) :
  2 ^ 176 <= p ->
  0 <= x < 2 ^ 88 -> 0 <= y < 2 ^ 88 -> 0 <= z < 2 ^ 88 ->
  compactMultiRangeCheck p (new_Field p (x + y * 2 ^ 88)) (new_Field p z) s
  = (Ok (Constant x, Constant y, Constant z), s).
Proof.
  intros Hp Hx Hy Hz.
  assert (Hxy : 0 <= x + y * 2 ^ 88 < 2 ^ 176).
  { change (2 ^ 176) with (2 ^ 88 * 2 ^ 88). nia. }
  rewrite (new_Field_small p (x + y * 2 ^ 88)) by lia.
  rewrite (new_Field_small p z) by lia.
  unfold compactMultiRangeCheck. cbn [isConstant andb toBigInt].
  unfold mbind, M_bind, mret, M_ret.
  rewrite (truthy_shiftr (x + y * 2 ^ 88) twoL) by (unfold twoL, L; lia).
  rewrite (truthy_shiftr z L) by (unfold L; lia).
  change (2 ^ twoL) with (2 ^ 176). change (2 ^ L) with (2 ^ 88).
  rewrite !bool_decide_eq_false_2 by lia.
  rewrite splitCompactLimb_pack by lia.
  by rewrite !new_Field_small by lia.
Qed.

(** C8. For constants of values [x], [y], [z]: if each lies in
    [[0, 2^88)], [multiRangeCheck] returns normally and touches nothing; if
    one of them is [2^88] or more, it throws the error whose message lists
    the decimal texts of all three. *)
Theorem multiRangeCheck_constants (p x y z : Z) (s : state) :
  0 <= x -> 0 <= y -> 0 <= z ->
  (x < 2 ^ 88 /\ y < 2 ^ 88 /\ z < 2 ^ 88 ->
   multiRangeCheck p (Constant x, Constant y, Constant z) s = (Ok tt, s)) /\
  (2 ^ 88 <= x \/ 2 ^ 88 <= y \/ 2 ^ 88 <= z ->
   multiRangeCheck p (Constant x, Constant y, Constant z) s
   = (Throw (Error ("Expected fields to fit in 88 bits, got " +:+
                    pretty x +:+ ", " +:+ pretty y +:+ ", " +:+ pretty z)),
      s)).
Proof.
  intros Hx Hy Hz.
  unfold multiRangeCheck. cbn [isConstant andb toBigInt toString].
  unfold mbind, M_bind, mret, M_ret, throw.
  rewrite !truthy_shiftr by (unfold L; lia).
  rewrite pretty_L. change (2 ^ L) with (2 ^ 88).
  split.
  - intros (Hx' & Hy' & Hz').
    by rewrite !bool_decide_eq_false_2 by lia.
  - intros Hbig.
    repeat case_bool_decide; try reflexivity. lia.
Qed.

(** *** The gate-based path *)

Lemma known_advanced (n : nat) gs (s s' : state) (x : Field) :
  advanced n gs s s' -> known s x -> known s' x.
Proof.
  intros (Hp & _ & _ & Hv) Hk. destruct x as [v|h]; [done|].
  simpl in *. rewrite Hp. auto.
Qed.

Lemma advanced_trans (n m : nat) gs gs' (s s' s'' : state) :
  advanced n gs s s' -> advanced m gs' s' s'' ->
  advanced (n + m) (gs ++ gs') s s''.
Proof.
  intros (Hp & Hn & Hg & Hv) (Hp' & Hn' & Hg' & Hv').
  repeat split.
  - congruence.
  - rewrite Hn', Hn. lia.
  - by rewrite Hg', Hg, app_assoc.
  - auto.
Qed.

Lemma toBigInt_known (s : state) (x : Field) :
  known s x -> proving s = true -> exists v, toBigInt x s = (Ok v, s).
Proof.
  intros Hk Hp. destruct x as [v|h]; simpl.
  - by exists v.
  - destruct (Hk Hp) as [v Hv]. exists v. by rewrite Hp, Hv.
Qed.

(** [exists] hands out the next [n] handles; the callback runs only while
    witnesses are computed, where it must return [n] values. *)
Lemma exists_advanced (p : Z) (n : nat) (compute : M state (list Z)) s :
  (proving s = true ->
   exists vals, compute s = (Ok vals, s) /\ Datatypes.length vals = n) ->
  exists s', exists_ p n compute s = (Ok (fresh (next_var s) n), s') /\
             advanced n [] s s'.
Proof.
  intros Hc. unfold exists_.
  destruct (proving s) eqn:Hp.
  - destruct (Hc eq_refl) as (vals & -> & Hlen).
    rewrite decide_True by done.
    eexists. split; [reflexivity|].
    repeat split; simpl; try done.
    + by rewrite app_nil_r.
    + intros h Hv. unfold seed. apply lookup_union_is_Some. by right.
  - eexists. split; [reflexivity|].
    repeat split; simpl; try done. by rewrite app_nil_r.
Qed.

(** A callback that reads [x] and slices its value. *)
Lemma slices_run (x : Field) (f : Z -> list Z) (n : nat) s :
  known s x -> (forall v, Datatypes.length (f v) = n) ->
  proving s = true ->
  exists vals, (xx ← toBigInt x; mret (f xx)) s = (Ok vals, s) /\
               Datatypes.length vals = n.
Proof.
  intros Hk Hf Hp. destruct (toBigInt_known s x Hk Hp) as [v Hv].
  exists (f v). split; [|done].
  unfold mbind, M_bind, mret, M_ret. by rewrite Hv.
Qed.

Lemma rangeCheck0Helper_advanced (p : Z) (x : Field) (isCompact : bool) s :
  known s x ->
  exists s',
    rangeCheck0Helper p x isCompact s
    = (Ok (Var (next_var s + 12), Var (next_var s + 13)), s') /\
    advanced 14 [row0 x (next_var s) isCompact] s s'.
Proof.
  intros Hk. unfold rangeCheck0Helper.
  unfold mbind at 1. unfold M_bind at 1.
  edestruct (exists_advanced p 8) as (s1 & -> & Ha1).
  { apply slices_run with (f := fun xx => _); [exact Hk | done]. }
  cbn [fresh seq fmap list_fmap].
  unfold mbind at 1. unfold M_bind at 1.
  edestruct (exists_advanced p 6) as (s2 & -> & Ha2).
  { apply slices_run with (f := fun xx => _);
      [exact (known_advanced _ _ _ _ _ Ha1 Hk) | done]. }
  cbn [fresh seq fmap list_fmap].
  pose proof Ha1 as (_ & Hn1 & _ & _).
  eexists. split.
  - unfold mbind, M_bind, Gates_rangeCheck0, emit, modify, mret, M_ret.
    rewrite Hn1. repeat f_equal; lia.
  - eapply (advanced_trans 8 6 [] _ s s1); [done|].
    eapply (advanced_trans 6 0 [] _ s1 s2); [done|].
    repeat split; simpl; first [done | lia].
Qed.

Lemma rangeCheck1Helper_advanced (p : Z) (x64 x76 y64 y76 z yz : Field) s :
  known s z ->
  exists s',
    rangeCheck1Helper p (mkInputs1 x64 x76 y64 y76 z yz) s = (Ok tt, s') /\
    advanced 24 [row1 x64 x76 y64 y76 z yz (next_var s)] s s'.
Proof.
  intros Hk. unfold rangeCheck1Helper.
  unfold mbind at 1. unfold M_bind at 1.
  edestruct (exists_advanced p 13) as (s1 & -> & Ha1).
  { apply slices_run with (f := fun zz => _); [exact Hk | done]. }
  cbn [fresh seq fmap list_fmap].
  unfold mbind at 1. unfold M_bind at 1.
  edestruct (exists_advanced p 11) as (s2 & -> & Ha2).
  { apply slices_run with (f := fun zz => _);
      [exact (known_advanced _ _ _ _ _ Ha1 Hk) | done]. }
  cbn [fresh seq fmap list_fmap].
  pose proof Ha1 as (_ & Hn1 & _ & _).
  eexists. split.
  - unfold Gates_rangeCheck1, emit, modify. rewrite Hn1. reflexivity.
  - eapply (advanced_trans 13 11 [] _ s s1); [done|].
    eapply (advanced_trans 11 0 [] _ s1 s2); [done|].
    repeat split; simpl; first [done | lia].
Qed.

(** C10. [multiRangeCheck] decides on the three tags alone. When all three
    inputs are constants it emits no gate and hands out no variable,
    whatever it returns: the circuit is left as it was. When at least one
    input is a variable (and the values of the variables can be read while
    witnesses are computed), it returns normally, whatever the values of
    the constant inputs, having sent all three inputs through the
    gate-based decomposition: [x] and [y] each through a [rangeCheck0]
    row, [z] through the [rangeCheck1] rows, with 52 fresh variables. *)
Theorem multiRangeCheck_gate_path (p : Z) (x y z : Field) (s : state) :
  (isConstant x && isConstant y && isConstant z = true ->
   snd (multiRangeCheck p (x, y, z) s) = s) /\
  (isConstant x && isConstant y && isConstant z = false ->
   known s x -> known s y -> known s z ->
   exists s',
     multiRangeCheck p (x, y, z) s = (Ok tt, s') /\
     let k := next_var s in
     advanced 52
       [row0 x k false;
        row0 y (k + 14) false;
        row1 (Var (k + 12)) (Var (k + 13)) (Var (k + 26)) (Var (k + 27))
             z (new_Field p 0) (k + 28)]
       s s').
Proof.
  split.
  - intros Hc. unfold multiRangeCheck. rewrite Hc.
    destruct x as [xv|]; [|done]. destruct y as [yv|]; [|done].
    destruct z as [zv|]; [|by rewrite andb_false_r in Hc].
    cbn [toBigInt toString].
    unfold mbind, M_bind, mret, M_ret, throw.
    by repeat (destruct (truthy _)).
  - intros Hc Hx Hy Hz. unfold multiRangeCheck. rewrite Hc.
    destruct (rangeCheck0Helper_advanced p x false s Hx) as (s1 & E1 & A1).
    pose proof (known_advanced _ _ _ _ y A1 Hy) as Hy1.
    destruct (rangeCheck0Helper_advanced p y false s1 Hy1) as (s2 & E2 & A2).
    pose proof (known_advanced _ _ _ _ z A1 Hz) as Hz1.
    pose proof (known_advanced _ _ _ _ z A2 Hz1) as Hz2.
    pose proof A1 as (_ & N1 & _ & _). pose proof A2 as (_ & N2 & _ & _).
    edestruct (rangeCheck1Helper_advanced p) as (s3 & E3 & A3); [exact Hz2|].
    exists s3. split.
    + unfold mbind at 1. unfold M_bind at 1. rewrite E1.
      unfold mbind at 1. unfold M_bind at 1. rewrite E2.
      apply E3.
    + cbv zeta.
      pose proof (advanced_trans _ _ _ _ _ _ _ A1
                    (advanced_trans _ _ _ _ _ _ _ A2 A3)) as A.
      rewrite N2, N1 in A. cbn [app] in A.
      replace (next_var s + 14 + 12)%nat with (next_var s + 26)%nat in A
        by lia.
      replace (next_var s + 14 + 13)%nat with (next_var s + 27)%nat in A
        by lia.
      replace (next_var s + 14 + 14)%nat with (next_var s + 28)%nat in A
        by lia.
      exact A.
Qed.

End RangeCheckFacts.

Module MerkleMapFacts.
Import Circuit MerkleMap Vocabulary.

Section WithHash.
Context (p : Z) (hash : list Z -> Z).

#[local] Abbreviation empty := (MerkleMap.empty hash).
#[local] Abbreviation canonical := (canonical_empty hash).
#[local] Abbreviation ok := (cache_ok hash).

Lemma cache_ok_init : ok emptyNodes_init.
Proof.
  split; [done|]. intros i Hi. simpl in Hi.
  by replace i with 0%nat by lia.
Qed.

Lemma arr_set_ok (a : JsArray) :
  ok a ->
  ok (arr_set a (arr_length a) (canonical (arr_length a))) /\
  arr_length (arr_set a (arr_length a) (canonical (arr_length a)))
  = S (arr_length a).
Proof.
  intros [Hlen Hget]. unfold arr_set, cache_ok, arr_get in *. simpl.
  assert (Hmax : Nat.max (arr_length a) (S (arr_length a)) = S (arr_length a))
    by lia.
  rewrite Hmax. split; [split; [lia|] | done].
  intros i Hi. destruct (decide (i = arr_length a)) as [->|Hne].
  - by rewrite lookup_insert_eq.
  - rewrite lookup_insert_ne by done. apply Hget. lia.
Qed.

Lemma empty_loop_ok (k : nat) (a : JsArray) :
  ok a ->
  exists a', empty_loop hash k (arr_length a) a = (Ok tt, a') /\
             ok a' /\ arr_length a' = (arr_length a + k)%nat.
Proof.
  revert a. induction k as [|k IH]; intros a Hok.
  - exists a. repeat split; try apply Hok. simpl. lia.
  - destruct (arr_set_ok a Hok) as [Hok' Hlen'].
    destruct (IH _ Hok') as (a' & Hrun & Hok'' & Hlen'').
    exists a'. split; [|split; [done | lia]].
    destruct Hok as [Hlen Hget].
    destruct (arr_length a) as [|j] eqn:Hj; [lia|].
    cbn [empty_loop]. unfold mbind, M_bind, gets, modify.
    rewrite (Hget j) by lia. cbn.
    rewrite Hlen' in Hrun. exact Hrun.
Qed.

(** From a well-formed cache [empty] returns the canonical hash and leaves
    a well-formed cache, extended up to [level] when it was shorter. *)
Lemma empty_ok (level : nat) (a : JsArray) :
  ok a ->
  exists a', empty level a = (Ok (Some (canonical level)), a') /\
             ok a' /\ arr_length a' = Nat.max (arr_length a) (S level).
Proof.
  intros Hok. unfold MerkleMap.empty.
  destruct (empty_loop_ok (S level - arr_length a) a Hok)
    as (a' & Hrun & Hok' & Hlen').
  exists a'. split; [|split; [done | lia]].
  unfold mbind, M_bind, gets. rewrite Hrun.
  destruct Hok' as [_ Hget]. rewrite Hget by lia. done.
Qed.

Lemma reachable_ok (a : JsArray) : reachable hash a -> ok a.
Proof.
  induction 1 as [|level a _ IH]; [apply cache_ok_init|].
  destruct (empty_ok level a IH) as (a' & -> & Hok & _). exact Hok.
Qed.

(** C7. [empty] is deterministic and follows its recurrence. In whatever
    states [a], [a'] earlier calls have left [emptyNodes]: [empty(level)]
    returns the same value from [a] and from [a'], in particular when
    called again right after itself; [empty(0)] returns [0]; and
    [empty(level + 1)] returns [hash([v, v])] where [v] is what
    [empty(level)] returns. *)
Theorem empty_deterministic_recurrence (a a' : JsArray) (level : nat) :
  reachable hash a -> reachable hash a' ->
  fst (empty level a) = fst (empty level a') /\
  fst (empty level (snd (empty level a))) = fst (empty level a) /\
  fst (empty 0 a) = Ok (Some 0) /\
  exists v : Z,
    fst (empty level a) = Ok (Some v) /\
    fst (empty (S level) a') = Ok (Some (hash [v; v])).
Proof.
  intros Ha%reachable_ok Ha'%reachable_ok.
  destruct (empty_ok level a Ha) as (a1 & E1 & Hok1 & _).
  destruct (empty_ok level a' Ha') as (a2 & E2 & _).
  destruct (empty_ok level a1 Hok1) as (a3 & E3 & _).
  destruct (empty_ok 0 a Ha) as (a4 & E4 & _).
  destruct (empty_ok (S level) a' Ha') as (a5 & E5 & _).
  rewrite E1, E2, E4, E5. simpl. rewrite E3. simpl.
  repeat split; try done. by exists (canonical level).
Qed.


(** The constructor does not assign [height]: in the object it returns,
    [this.height] reads as [undefined]. *)
Lemma constructor_height_unset (h : nat) (a a' : JsArray) m :
  constructor p hash h a = (Ok m, a') -> height m = None.
Proof.
  unfold constructor, mbind, M_bind.
  destruct (match h with O => mret None | S top => empty top end a)
    as [[[v|]|e] a1]; simpl; [|done..].
  by intros [= <- _].
Qed.

Lemma getNode_hit (level : nat) (index v : Z) (nonEmpty : bool) (w : world) :
  node_at w level index = Some v ->
  getNode hash level index nonEmpty w = (Ok (Some v), w).
Proof. unfold getNode, mbind, M_bind, gets. by intros ->. Qed.

(** C6. [getNode(level, index, nonEmpty)]: when the cache holds an entry
    [v] at [(level, index)], returns [v]; when it holds none and
    [nonEmpty] is true, throws the "was expected to be known" error; when
    it holds none and [nonEmpty] is false, returns what [empty(level)]
    returns (extending [emptyNodes] as [empty] does), which is the
    canonical empty-subtree hash of [level]. In no case does the map
    change. *)
Theorem getNode_cases (level : nat) (index : Z) (nonEmpty : bool)
        (w : world) :
  (forall v : Z,
     node_at w level index = Some v ->
     getNode hash level index nonEmpty w = (Ok (Some v), w)) /\
  (node_at w level index = None -> nonEmpty = true ->
   getNode hash level index nonEmpty w
   = (Throw (Error ("node at level=" +:+ pretty level +:+ ", index=" +:+
                    pretty index +:+
                    " was expected to be known, but isn't.")), w)) /\
  (node_at w level index = None -> nonEmpty = false ->
   getNode hash level index nonEmpty w
   = (fst (empty level (emptyNodes w)),
      mkWorld (snd (empty level (emptyNodes w))) (this w)) /\
   (reachable hash (emptyNodes w) ->
    fst (getNode hash level index nonEmpty w)
    = Ok (Some (canonical level)))).
Proof.
  unfold getNode, mbind, M_bind, gets.
  split; [|split].
  - intros v Hv. unfold mbind, M_bind, gets. by apply getNode_hit.
  - by intros -> ->.
  - intros -> ->. unfold on_emptyNodes.
    destruct (empty level (emptyNodes w)) as [r a'] eqn:E. split; [done|].
    intros Hr.
    destruct (empty_ok level _ (reachable_ok _ Hr)) as (a'' & E' & _).
    rewrite E' in E. by injection E as <- <-.
Qed.

(** *** Writing and reading the node cache *)

Lemma same_fields_refl (w : world) : same_fields w w.
Proof. by repeat split. Qed.

Lemma same_fields_trans (w1 w2 w3 : world) :
  same_fields w1 w2 -> same_fields w2 w3 -> same_fields w1 w3.
Proof.
  unfold same_fields.
  intros (? & ? & ? & ? & ? & ?) (? & ? & ? & ? & ? & ?).
  repeat split; congruence.
Qed.

Lemma write_node_ok (level : nat) (index v : Z) (w : world) :
  (level < Datatypes.length (nodes (data (this w))))%nat ->
  exists w',
    write_node level index v w = (Ok tt, w') /\
    emptyNodes w' = emptyNodes w /\
    same_fields w w' /\
    node_at w' level index = Some v /\
    (forall lev j, lev <> level \/ j <> index ->
                   node_at w' lev j = node_at w lev j).
Proof.
  intros Hlen.
  destruct (lookup_lt_is_Some_2 _ _ Hlen) as [r Hr].
  unfold write_node, mbind, M_bind, gets, modify. rewrite Hr.
  eexists. split; [reflexivity|].
  unfold node_at, same_fields, set_nodes; simpl.
  split; [done|]. split; [|split].
  - repeat split. by rewrite length_insert.
  - rewrite list_lookup_insert_eq by done. simpl.
    by rewrite lookup_insert_eq.
  - intros lev j Hne.
    destruct (decide (lev = level)) as [->|Hlev].
    + rewrite list_lookup_insert_eq by done. rewrite Hr. simpl.
      destruct Hne as [|Hj]; [done|]. by rewrite lookup_insert_ne.
    + by rewrite list_lookup_insert_ne.
Qed.

(** With a well-formed [emptyNodes], [getNode] returns the value the
    cache stands for, unless it was told to expect an entry that is not
    there; the map is not touched. *)
Lemma getNode_value (level : nat) (index : Z) (nonEmpty : bool) (w : world) :
  ok (emptyNodes w) ->
  (nonEmpty = true -> is_Some (node_at w level index)) ->
  exists w',
    getNode hash level index nonEmpty w
    = (Ok (Some (node_value hash w level index)), w') /\
    this w' = this w /\ ok (emptyNodes w').
Proof.
  intros Hok Hne. unfold getNode, node_value, mbind, M_bind, gets.
  destruct (node_at w level index) as [v|] eqn:Hv; simpl.
  - by exists w.
  - destruct nonEmpty; [by destruct (Hne eq_refl)|].
    destruct (empty_ok level _ Hok) as (a' & E & Hok' & _).
    unfold on_emptyNodes. rewrite E. by eexists.
Qed.

Lemma node_value_same (w w' : world) (level : nat) (index : Z) :
  node_at w' level index = node_at w level index ->
  node_value hash w' level index = node_value hash w level index.
Proof. unfold node_value. by intros ->. Qed.

Lemma node_at_this (w w' : world) (level : nat) (index : Z) :
  this w' = this w -> node_at w' level index = node_at w level index.
Proof. unfold node_at. by intros ->. Qed.

Lemma same_fields_this (w w' : world) : this w' = this w -> same_fields w w'.
Proof. unfold same_fields. intros ->. by repeat split. Qed.

(** The child of the path below position [i / 2] is [i] itself, on the
    left when [i] is even and on the right when it is odd. *)
Lemma path_child (i : Z) :
  (if Z.rem i 2 =? 0 then i / 2 * 2 else i / 2 * 2 + 1) = i.
Proof.
  destruct (Z.eqb_spec (Z.rem i 2) 0) as [H|H];
    Z.to_euclidean_division_equations; lia.
Qed.

(** *** The loop of [setLeafNode]

    Started at level [l] with [index = i], where the entry for [i] one
    level below is in the cache, [k] passes go through: they write the
    ancestors of [i] on levels [l .. l + k - 1], each as the hash of the
    values its two children stand for, and nothing else. *)
Lemma setLeafNode_loop_ok (k : nat) :
  forall (l : nat) (i : Z) (w : world),
    - 2 ^ 53 <= i < 2 ^ 53 ->
    (1 <= l)%nat ->
    (l + k <= Datatypes.length (nodes (data (this w))))%nat ->
    ok (emptyNodes w) ->
    is_Some (node_at w (l - 1) i) ->
    exists w',
      setLeafNode_loop hash k l i (Z.rem i 2 =? 0) w = (Ok tt, w') /\
      same_fields w w' /\
      ok (emptyNodes w') /\
      (forall lev j,
         (lev < l)%nat \/ (l + k <= lev)%nat \/ j <> ancestor (S lev - l) i ->
         node_at w' lev j = node_at w lev j) /\
      (forall d, (d < k)%nat ->
         node_at w' (l + d) (ancestor (S d) i)
         = Some (hash
             [node_value hash w' (l + d - 1) (ancestor (S d) i * 2);
              node_value hash w' (l + d - 1) (ancestor (S d) i * 2 + 1)])).
Proof.
  induction k as [|k IH]; intros l i w Hi Hl Hlen Hok Hpath.
  { exists w. split; [done|]. split; [apply same_fields_refl|].
    split; [done|]. split; [done|]. intros d Hd. lia. }
  pose proof (path_child i) as Hchild.
  (* left child *)
  destruct (getNode_value (l - 1) (i / 2 * 2) (Z.rem i 2 =? 0) w Hok)
    as (w1 & E1 & T1 & Hok1).
  { intros Heven. rewrite Heven in Hchild. by rewrite Hchild. }
  (* right child *)
  destruct (getNode_value (l - 1) (i / 2 * 2 + 1) (negb (Z.rem i 2 =? 0))
              w1 Hok1) as (w2 & E2 & T2 & Hok2).
  { intros Hodd%negb_true_iff. rewrite Hodd in Hchild.
    rewrite Hchild, (node_at_this w w1) by done. exact Hpath. }
  set (left := node_value hash w (l - 1) (i / 2 * 2)) in *.
  set (right := node_value hash w1 (l - 1) (i / 2 * 2 + 1)) in *.
  (* the write *)
  destruct (write_node_ok l (i / 2) (hash [left; right]) w2)
    as (w3 & E3 & C3 & F3 & Hnew & Hold).
  { rewrite T2, T1. lia. }
  (* the remaining passes *)
  destruct (IH (S l) (i / 2) w3) as (w' & E & F & Hok' & Hframe & Hdata).
  { Z.div_mod_to_equations. lia. }
  { lia. }
  { destruct F3 as (_ & _ & _ & _ & _ & ->). rewrite T2, T1. lia. }
  { by rewrite C3. }
  { replace (S l - 1)%nat with l by lia. by rewrite Hnew. }
  assert (Hframe' : forall lev j,
    (lev < l)%nat \/ (l + S k <= lev)%nat \/ j <> ancestor (S lev - l) i ->
    node_at w' lev j = node_at w lev j).
  { intros lev j Hcase.
    rewrite Hframe, Hold, (node_at_this w1 w2), (node_at_this w w1);
      try done.
    - destruct (decide (lev = l)) as [->|]; [|by left].
      right. destruct Hcase as [|[|Hj]]; [lia..|].
      by replace (S l - l)%nat with 1%nat in Hj by lia.
    - destruct (decide (lev < S l)%nat); [by left|]. right.
      destruct Hcase as [|[|Hj]]; [lia | left; lia | right].
      by replace (S lev - l)%nat with (S (S lev - S l)) in Hj by lia. }
  exists w'. split; [|split; [|split; [done|split; [done|]]]].
  - cbn [setLeafNode_loop].
    rewrite (NumberFacts.rnd_exact (i / 2 * 2 + 1))
      by (Z.div_mod_to_equations; lia).
    unfold mbind at 1. unfold M_bind at 1.
    rewrite E1. unfold mbind at 1. unfold M_bind at 1. rewrite E2.
    fold left right. cbn [PoseidonBigint_hash mapM id].
    unfold mbind at 1. unfold M_bind at 1. cbn.
    unfold mbind at 1. unfold M_bind at 1. rewrite E3.
    exact E.
  - apply same_fields_trans with w3; [|done].
    apply same_fields_trans with w2; [|done].
    apply same_fields_trans with w1; by apply same_fields_this.
  - intros [|d] Hd.
    + replace (l + 0)%nat with l by lia. cbn [ancestor].
      rewrite Hframe by (left; lia). rewrite Hnew.
      rewrite !(node_value_same w w') by (apply Hframe'; left; lia).
      subst left right.
      by rewrite (node_value_same w w1) by (by apply node_at_this).
    + replace (l + S d)%nat with (S l + d)%nat by lia.
      cbn [ancestor]. apply Hdata. lia.
Qed.

Lemma ancestor_succ_r (d : nat) (i : Z) :
  ancestor (S d) i = ancestor d i / 2.
Proof. revert i. induction d as [|d IH]; intros i; [done|]. apply IH. Qed.

(** The ancestor [d] levels up sits at position [floor(i / 2^d)]. *)
Lemma ancestor_div (d : nat) (i : Z) : ancestor d i = i / 2 ^ Z.of_nat d.
Proof.
  revert i. induction d as [|d IH]; intros i.
  - simpl. by rewrite Z.div_1_r.
  - cbn [ancestor]. rewrite IH, Nat2Z.inj_succ, Z.pow_succ_r by lia.
    rewrite Z.div_div by (try apply Z.pow_pos_nonneg; lia). done.
Qed.

(** C2, as the code has it. On a map whose [height] field holds [H >= 1]
    and whose [nodes] has a row for every level below [H], in whatever
    state earlier calls have left [emptyNodes], and for an [index] with
    [-2^53 <= index < 2^53], where the position of a sibling does not
    round, [setLeafNode(index, leaf)] returns normally and afterwards:
    the level-0 entry at [index] is [leaf], and [getNode(0, index, true)]
    returns it; on every level [1 <= lev < H] the entry of the ancestor
    of [index] is [hash([left, right])], where [left] and [right] are
    what [getNode] returns for its two children, asked with [nonEmpty] on
    the side of the path only; every other cache entry is as before; and
    [root], like [length], [height], [leaves] and [lowNodes], is as
    before: [setLeafNode] does not write the root. *)
Theorem setLeafNode_path (H : nat) (index leaf : Z) (w : world) :
  - 2 ^ 53 <= index < 2 ^ 53 ->
  height (this w) = Some H ->
  (1 <= H)%nat ->
  (H <= Datatypes.length (nodes (data (this w))))%nat ->
  reachable hash (emptyNodes w) ->
  exists w',
    setLeafNode hash index leaf w = (Ok tt, w') /\
    node_at w' 0 index = Some leaf /\
    getNode hash 0 index true w' = (Ok (Some leaf), w') /\
    (forall lev, (1 <= lev < H)%nat ->
       let i := ancestor lev index in
       let isLeft := Z.rem (ancestor (lev - 1) index) 2 =? 0 in
       exists left right : Z,
         fst (getNode hash (lev - 1) (i * 2) isLeft w') = Ok (Some left) /\
         fst (getNode hash (lev - 1) (i * 2 + 1) (negb isLeft) w')
         = Ok (Some right) /\
         node_at w' lev i = Some (hash [left; right])) /\
    (forall lev j, (H <= lev)%nat \/ j <> ancestor lev index ->
                   node_at w' lev j = node_at w lev j) /\
    root (this w') = root (this w) /\
    same_fields w w'.
Proof.
  intros Hindex Hheight HH Hrows Hreach%reachable_ok.
  destruct (write_node_ok 0 index leaf w)
    as (w0 & E0 & C0 & F0 & Hleaf & Hold); [lia|].
  destruct (setLeafNode_loop_ok (H - 1) 1 index w0)
    as (w' & E & F & Hok' & Hframe & Hdata).
  { done. }
  { lia. }
  { destruct F0 as (_ & _ & _ & _ & _ & ->). lia. }
  { by rewrite C0. }
  { change (1 - 1)%nat with 0%nat. by rewrite Hleaf. }
  assert (Fw : same_fields w w') by (by apply same_fields_trans with w0).
  assert (Hleaf' : node_at w' 0 index = Some leaf).
  { rewrite Hframe by (left; lia). exact Hleaf. }
  (* every node of the path is in the cache *)
  assert (Hpath : forall lev, (lev < H)%nat ->
            is_Some (node_at w' lev (ancestor lev index))).
  { intros [|d] Hd; [cbn [ancestor]; by rewrite Hleaf'|].
    replace (S d) with (1 + d)%nat by lia. rewrite Hdata by lia. done. }
  exists w'. split; [|split; [done|split; [|split; [|split]]]].
  - unfold setLeafNode. unfold mbind at 1. unfold M_bind at 1. rewrite E0.
    unfold mbind, M_bind, gets.
    destruct F0 as (_ & _ & -> & _). rewrite Hheight. exact E.
  - by apply getNode_hit.
  - intros lev Hlev i isLeft.
    pose proof (path_child (ancestor (lev - 1) index)) as Hchild.
    assert (Hi : i = ancestor (lev - 1) index / 2).
    { subst i. replace lev with (S (lev - 1)) at 1 by lia.
      apply ancestor_succ_r. }
    rewrite <- Hi in Hchild. fold isLeft in Hchild.
    destruct (getNode_value (lev - 1) (i * 2) isLeft w' Hok')
      as (w1 & -> & _).
    { intros Ht. rewrite Ht in Hchild. rewrite Hchild.
      apply Hpath. lia. }
    destruct (getNode_value (lev - 1) (i * 2 + 1) (negb isLeft) w' Hok')
      as (w2 & -> & _).
    { intros Ht%negb_true_iff. rewrite Ht in Hchild. rewrite Hchild.
      apply Hpath. lia. }
    eexists _, _. split; [done|]. split; [done|].
    pose proof (Hdata (lev - 1)%nat ltac:(lia)) as Hd.
    change (1 + (lev - 1))%nat with (S (lev - 1)) in Hd.
    assert (Hs : S (lev - 1) = lev) by lia.
    rewrite !Hs in Hd. exact Hd.
  - intros lev j Hcase. rewrite Hframe, Hold; [done| |].
    + destruct lev as [|lev]; [right|by left].
      destruct Hcase as [|Hj]; [lia | done].
    + destruct Hcase as [|Hj]; [right; left; lia|].
      right; right. by replace (S lev - 1)%nat with lev by lia.
  - split; [apply Fw | exact Fw].
Qed.

End WithHash.
End MerkleMapFacts.

(** ** Further properties of the range-check gadgets *)

Module RangeCheckMore.
Import Circuit RangeCheck Vocabulary RangeCheckFacts.

(** *** Limbs *)

Lemma slices_length (v start : Z) (widths : list Z) :
  Datatypes.length (slices v start widths) = Datatypes.length widths.
Proof.
  revert start. induction widths as [|w ws IH]; intros start; [done|].
  simpl. by rewrite IH.
Qed.

Lemma sum_list_nonneg (ws : list Z) :
  Forall (fun w => 0 <= w) ws -> 0 <= foldr Z.add 0 ws.
Proof. induction 1; simpl; lia. Qed.

(** Slices that tile the bits from [start] upwards recompose to the bits
    they cover. *)
Lemma pack_slices (v start : Z) (widths : list Z) :
  0 <= start -> Forall (fun w => 0 <= w) widths ->
  pack widths (slices v start widths)
  = (v / 2 ^ start) mod 2 ^ foldr Z.add 0 widths.
Proof.
  intros Hs Hw. revert start Hs.
  induction Hw as [|w ws Hw0 Hws IH]; intros start Hs.
  - simpl. by rewrite Z.mod_1_r.
  - cbn [pack slices foldr]. rewrite IH by lia.
    pose proof (sum_list_nonneg ws Hws) as Hsum.
    rewrite bitSlice_div_mod by done.
    rewrite (Z.pow_add_r 2 w (foldr Z.add 0 ws)) by done.
    rewrite (Z.pow_add_r 2 start w) by done.
    rewrite <- Z.div_div by (try apply Z.pow_pos_nonneg; lia).
    symmetry. apply Z.rem_mul_r.
    + apply Z.pow_nonzero; lia.
    + apply Z.pow_pos_nonneg; lia.
Qed.

Lemma slices_in_range (v start : Z) (widths : list Z) :
  Forall (fun w => 0 <= w) widths ->
  Forall2 (fun w l => 0 <= l < 2 ^ w) widths (slices v start widths).
Proof.
  intros Hw. revert start. induction Hw as [|w ws Hw0 Hws IH]; intros start.
  - constructor.
  - simpl. constructor; [by apply bitSlice_range | apply IH].
Qed.

(** *** The witness store *)

Lemma seed_lookup_new (p : Z) (k : nat) (vals : list Z) (m : gmap nat Z)
      (i : nat) (v : Z) :
  vals !! i = Some v -> seed p k vals m !! (k + i)%nat = Some (v mod p).
Proof.
  intros Hv. unfold seed. apply lookup_union_Some_l.
  apply elem_of_list_to_map_1.
  - rewrite fst_zip by (by rewrite length_fmap, length_seq).
    apply NoDup_seq.
  - apply list_elem_of_lookup. exists i.
    apply lookup_zip_Some. split.
    + apply lookup_seq_lt. by apply lookup_lt_Some in Hv.
    + by rewrite list_lookup_fmap, Hv.
Qed.

Lemma seed_lookup_old (p : Z) (k : nat) (vals : list Z) (m : gmap nat Z)
      (h : nat) :
  (h < k \/ k + Datatypes.length vals <= h)%nat ->
  seed p k vals m !! h = m !! h.
Proof.
  intros Hh. unfold seed. apply lookup_union_r.
  apply not_elem_of_list_to_map_1.
  rewrite fst_zip by (by rewrite length_fmap, length_seq).
  rewrite elem_of_seq. lia.
Qed.

(** While witnesses are computed, [exists] runs the callback and seeds
    the new variables with what it returns. *)
Lemma exists_proving (p : Z) (n : nat) (compute : M state (list Z))
      (s : state) (vals : list Z) :
  proving s = true -> compute s = (Ok vals, s) ->
  Datatypes.length vals = n ->
  exists_ p n compute s
  = (Ok (fresh (next_var s) n),
     mkState true (next_var s + n) (seed p (next_var s) vals (values s))
             (gates s)).
Proof.
  intros Hp Hc Hlen. unfold exists_. rewrite Hp, Hc.
  rewrite decide_True by done. by rewrite Hp.
Qed.

(** Reading [x] gives the same value after later variables were seeded. *)
Lemma toBigInt_seeded (p : Z) (x : Field) (s : state) (v : Z)
      (n : nat) (vals : list Z) (gs : list Gate) :
  proving s = true -> allocated s x -> toBigInt x s = (Ok v, s) ->
  let s' := mkState true (next_var s + n)
                    (seed p (next_var s) vals (values s)) gs in
  toBigInt x s' = (Ok v, s') /\ allocated s' x.
Proof.
  intros Hp Ha Hv s'. destruct x as [c|h]; simpl in *.
  - split; [|done]. by injection Hv as ->.
  - rewrite Hp in Hv. rewrite seed_lookup_old by lia.
    destruct (values s !! h) as [v'|]; [|done].
    injection Hv as ->. split; [done | lia].
Qed.

Lemma slicing_run (x : Field) (s : state) (v : Z) (f : Z -> list Z) :
  toBigInt x s = (Ok v, s) ->
  (xx ← toBigInt x; mret (f xx)) s = (Ok (f v), s).
Proof. intros Hv. unfold mbind, M_bind, mret, M_ret. by rewrite Hv. Qed.

(** The witnesses of freshly seeded variables. *)
Lemma witness_of_seed (p : Z) (k : nat) (vals : list Z) (m : gmap nat Z)
      (pr : bool) (gs : list Gate) (nv : nat) :
  Forall (fun v => 0 <= v < p) vals ->
  witness_of (mkState pr nv (seed p k vals m) gs) k (Datatypes.length vals)
  = Some <$> vals.
Proof.
  intros Hvals. unfold witness_of. simpl.
  apply list_eq. intros i.
  rewrite !list_lookup_fmap.
  destruct (vals !! i) as [v|] eqn:Hv.
  - rewrite lookup_seq_lt by (by apply lookup_lt_Some in Hv). simpl.
    rewrite (seed_lookup_new p k vals m i v Hv).
    rewrite Z.mod_small; [done|].
    by apply (Forall_lookup_1 _ _ _ _ Hvals Hv).
  - rewrite lookup_seq_ge; [done|]. by apply lookup_ge_None.
Qed.

Lemma witness_of_old (p : Z) (k k' n : nat) (vals : list Z) (m : gmap nat Z)
      (pr pr' : bool) (gs gs' : list Gate) (nv nv' : nat) :
  (k' + n <= k)%nat ->
  witness_of (mkState pr nv (seed p k vals m) gs) k' n
  = witness_of (mkState pr' nv' m gs') k' n.
Proof.
  intros Hk. unfold witness_of. simpl.
  apply list_fmap_ext. intros i h Hh.
  apply lookup_seq in Hh as [-> Hi].
  apply seed_lookup_old. lia.
Qed.

Lemma slices_small (p v start : Z) (widths : list Z) :
  Forall (fun w => 0 <= w <= 12) widths -> 2 ^ 12 <= p ->
  Forall (fun l => 0 <= l < p) (slices v start widths).
Proof.
  intros Hw Hp. revert start. induction Hw as [|w ws Hw0 Hws IH];
    intros start; simpl; constructor; [|apply IH].
  pose proof (bitSlice_range v start w ltac:(lia)).
  assert (2 ^ w <= 2 ^ 12) by (apply Z.pow_le_mono_r; lia). lia.
Qed.

(** Two [exists] in a row whose callbacks slice the value of [x]. *)
Lemma two_slicings (p : Z) (x : Field) (s : state) (v : Z)
      (f g : Z -> list Z) (n m : nat) :
  proving s = true -> allocated s x -> toBigInt x s = (Ok v, s) ->
  (forall u, Datatypes.length (f u) = n) ->
  (forall u, Datatypes.length (g u) = m) ->
  let k := next_var s in
  let s1 := mkState true (k + n) (seed p k (f v) (values s)) (gates s) in
  let s2 := mkState true (k + n + m)
              (seed p (k + n) (g v) (seed p k (f v) (values s))) (gates s) in
  exists_ p n (xx ← toBigInt x; mret (f xx)) s = (Ok (fresh k n), s1) /\
  exists_ p m (xx ← toBigInt x; mret (g xx)) s1 = (Ok (fresh (k + n) m), s2).
Proof.
  intros Hp Ha Hv Hf Hg k s1 s2.
  destruct (toBigInt_seeded p x s v n (f v) (gates s) Hp Ha Hv) as [Hv1 _].
  fold k s1 in Hv1.
  split.
  - by apply exists_proving; [|apply slicing_run|].
  - by apply (exists_proving p m _ s1 (g v)); [|apply slicing_run|].
Qed.

(** The witnesses of two batches of variables seeded one after the
    other. *)
Lemma witness_of_two (p : Z) (k : nat) (a b : list Z) (m : gmap nat Z)
      (pr : bool) (gs : list Gate) (nv : nat) :
  Forall (fun v => 0 <= v < p) a -> Forall (fun v => 0 <= v < p) b ->
  let s := mkState pr nv
             (seed p (k + Datatypes.length a) b (seed p k a m)) gs in
  witness_of s k (Datatypes.length a) = Some <$> a /\
  witness_of s (k + Datatypes.length a) (Datatypes.length b) = Some <$> b.
Proof.
  intros Ha Hb s. split.
  - unfold s.
    rewrite (witness_of_old p _ k _ b _ pr pr gs gs nv nv) by lia.
    by apply witness_of_seed.
  - by apply witness_of_seed.
Qed.

Lemma witness_of_app (s : state) (k n m : nat) :
  witness_of s k (n + m) = witness_of s k n ++ witness_of s (k + n) m.
Proof. unfold witness_of. by rewrite seq_app, fmap_app. Qed.

(** X6. The variables [rangeCheck0Helper] hands out while witnesses are
    computed hold, in the order they are handed out, eight crumbs and six
    twelve-bit limbs that recompose to the low 88 bits of the value of
    [x]: to the value itself exactly when it fits in 88 bits. The call
    does not throw when it does not fit. *)
Theorem rangeCheck0Helper_witness (p : Z) (x : Field) (isCompact : bool)
        (s : state) (v : Z) :
  2 ^ 12 <= p ->
  proving s = true -> allocated s x -> toBigInt x s = (Ok v, s) ->
  let k := next_var s in
  exists (s' : state) (ws : list Z),
    rangeCheck0Helper p x isCompact s
    = (Ok (Var (k + 12), Var (k + 13)), s') /\
    next_var s' = (k + 14)%nat /\
    gates s' = gates s ++ [row0 x k isCompact] /\
    witness_of s' k 14 = Some <$> ws /\
    Forall2 (fun w l => 0 <= l < 2 ^ w) (crumbs_limbs 6) ws /\
    pack (crumbs_limbs 6) ws = v mod 2 ^ 88 /\
    (0 <= v -> (pack (crumbs_limbs 6) ws = v <-> v < 2 ^ 88)).
Proof.
  intros Hp Hpr Ha Hv k.
  set (f := fun xx : Z =>
    [bitSlice xx 0 2; bitSlice xx 2 2; bitSlice xx 4 2; bitSlice xx 6 2;
     bitSlice xx 8 2; bitSlice xx 10 2; bitSlice xx 12 2; bitSlice xx 14 2]).
  set (g := fun xx : Z =>
    [bitSlice xx 16 12; bitSlice xx 28 12; bitSlice xx 40 12;
     bitSlice xx 52 12; bitSlice xx 64 12; bitSlice xx 76 12]).
  destruct (two_slicings p x s v f g 8 6 Hpr Ha Hv) as [E1 E2]; [done..|].
  fold k in E1, E2.
  assert (Hws : f v ++ g v = slices v 0 (crumbs_limbs 6)) by reflexivity.
  assert (Hw12 : Forall (fun w => 0 <= w <= 12) (crumbs_limbs 6)).
  { unfold crumbs_limbs. simpl. repeat constructor; lia. }
  assert (Hw0 : Forall (fun w => 0 <= w) (crumbs_limbs 6)).
  { eapply Forall_impl; [exact Hw12|]. simpl. lia. }
  pose proof (slices_small p v 0 _ Hw12 Hp) as Hsmall.
  rewrite <- Hws in Hsmall. apply Forall_app in Hsmall as [Hf Hg].
  exists (mkState true (k + 8 + 6)
            (seed p (k + 8) (g v) (seed p k (f v) (values s)))
            (gates s ++ [row0 x k isCompact])),
         (slices v 0 (crumbs_limbs 6)).
  split; [|split; [|split; [|split; [|split; [|split]]]]].
  - unfold rangeCheck0Helper.
    unfold f, g in E1, E2. cbv beta in E1, E2.
    unfold mbind at 1. unfold M_bind at 1. rewrite E1.
    cbn [fresh seq fmap list_fmap].
    unfold mbind at 1. unfold M_bind at 1. rewrite E2.
    cbn [fresh seq fmap list_fmap].
    unfold mbind, M_bind, Gates_rangeCheck0, emit, modify, mret, M_ret.
    cbn [proving next_var values gates].
    f_equal. repeat f_equal; lia.
  - simpl. lia.
  - done.
  - rewrite (witness_of_app _ k 8 6), <- Hws, fmap_app.
    pose proof (witness_of_two p k (f v) (g v) (values s) true
                  (gates s ++ [row0 x k isCompact]) (k + 8 + 6) Hf Hg)
      as [W1 W2].
    cbn [Datatypes.length f g] in W1, W2.
    by rewrite <- W1, <- W2.
  - by apply slices_in_range.
  - rewrite pack_slices by done. by rewrite Z.div_1_r.
  - intros Hv0. rewrite pack_slices by done. rewrite Z.div_1_r.
    change (foldr Z.add 0 (crumbs_limbs 6)) with 88.
    split.
    + intros Heq. rewrite <- Heq. apply Z.mod_pos_bound. lia.
    + intros Hlt. apply Z.mod_small. lia.
Qed.

(** *** The gate-based paths, with the witnesses kept track of *)

Lemma grown_trans (n m : nat) gs gs' (s s' s'' : state) :
  grown n gs s s' -> grown m gs' s' s'' -> grown (n + m) (gs ++ gs') s s''.
Proof.
  intros (A & Hold & Hnew) (A' & Hold' & Hnew').
  pose proof A as (Hp & Hn & _ & Hv).
  split; [by eapply advanced_trans|]. split.
  - intros h Hh. rewrite Hold' by lia. by apply Hold.
  - intros Hpr h Hh. destruct (decide (h < next_var s + n)%nat).
    + rewrite Hold' by lia. apply Hnew; [done | lia].
    + apply Hnew'; [congruence | lia].
Qed.

Lemma known_grown (n : nat) gs (s s' : state) (x : Field) :
  grown n gs s s' -> known s x -> known s' x.
Proof. intros [A _]. by apply known_advanced with n gs. Qed.

Lemma allocated_grown (n : nat) gs (s s' : state) (x : Field) :
  grown n gs s s' -> allocated s x -> allocated s' x.
Proof.
  intros [(_ & Hn & _) _]. destruct x as [|h]; [done|].
  simpl. rewrite Hn. lia.
Qed.

(** A variable handed out by a step is known afterwards. *)
Lemma known_new (n : nat) gs (s s' : state) (h : nat) :
  grown n gs s s' -> (next_var s <= h < next_var s + n)%nat ->
  known s' (Var h).
Proof.
  intros ((Hp & _) & _ & Hnew) Hh. simpl. rewrite Hp. intros Hpr.
  by apply Hnew.
Qed.

Lemma exists_grown (p : Z) (n : nat) (compute : M state (list Z)) s :
  (proving s = true ->
   exists vals, compute s = (Ok vals, s) /\ Datatypes.length vals = n) ->
  exists s', exists_ p n compute s = (Ok (fresh (next_var s) n), s') /\
             grown n [] s s'.
Proof.
  intros Hc. destruct (proving s) eqn:Hp.
  - destruct (Hc eq_refl) as (vals & Hrun & Hlen).
    exists (mkState true (next_var s + n)
              (seed p (next_var s) vals (values s)) (gates s)).
    split; [exact (exists_proving p n compute s vals Hp Hrun Hlen)|].
    split; [|split]; simpl.
    + repeat split; simpl; try done.
      * by rewrite app_nil_r.
      * intros h Hh. unfold seed. apply lookup_union_is_Some. by right.
    + intros h Hh. apply seed_lookup_old. lia.
    + intros _ h Hh.
      destruct (lookup_lt_is_Some_2 vals (h - next_var s)) as [v Hv]; [lia|].
      replace h with (next_var s + (h - next_var s))%nat by lia.
      rewrite (seed_lookup_new p _ vals _ _ v Hv). done.
  - eexists. split; [unfold exists_; by rewrite Hp|].
    split; [|split]; simpl; try done.
    + repeat split; simpl; try done. by rewrite app_nil_r.
    + intros Hpr. congruence.
Qed.

Lemma emit_grown (g : Gate) (s : state) :
  exists s', emit g s = (Ok tt, s') /\ grown 0 [g] s s'.
Proof.
  eexists. split; [reflexivity|].
  split; [|split]; simpl; [|done|intros _ h Hh; lia].
  repeat split; simpl; first [done | lia].
Qed.

Lemma rangeCheck0Helper_grown (p : Z) (x : Field) (isCompact : bool) s :
  known s x ->
  exists s',
    rangeCheck0Helper p x isCompact s
    = (Ok (Var (next_var s + 12), Var (next_var s + 13)), s') /\
    grown 14 [row0 x (next_var s) isCompact] s s'.
Proof.
  intros Hk. unfold rangeCheck0Helper.
  unfold mbind at 1. unfold M_bind at 1.
  edestruct (exists_grown p 8) as (s1 & -> & G1).
  { apply slices_run with (f := fun xx => _); [exact Hk | done]. }
  cbn [fresh seq fmap list_fmap].
  unfold mbind at 1. unfold M_bind at 1.
  edestruct (exists_grown p 6) as (s2 & -> & G2).
  { apply slices_run with (f := fun xx => _);
      [exact (known_grown _ _ _ _ _ G1 Hk) | done]. }
  cbn [fresh seq fmap list_fmap].
  pose proof G1 as ((_ & Hn1 & _) & _).
  unfold mbind at 1. unfold M_bind at 1. unfold Gates_rangeCheck0.
  edestruct (emit_grown) as (s3 & -> & G3).
  eexists. split.
  - unfold mret, M_ret. rewrite Hn1. repeat f_equal; lia.
  - pose proof (grown_trans _ _ _ _ _ _ _ G1
                  (grown_trans _ _ _ _ _ _ _ G2 G3)) as G.
    rewrite Hn1 in G. exact G.
Qed.

Lemma rangeCheck1Helper_grown (p : Z) (x64 x76 y64 y76 z yz : Field) s :
  known s z ->
  exists s',
    rangeCheck1Helper p (mkInputs1 x64 x76 y64 y76 z yz) s = (Ok tt, s') /\
    grown 24 [row1 x64 x76 y64 y76 z yz (next_var s)] s s'.
Proof.
  intros Hk. unfold rangeCheck1Helper.
  unfold mbind at 1. unfold M_bind at 1.
  edestruct (exists_grown p 13) as (s1 & -> & G1).
  { apply slices_run with (f := fun zz => _); [exact Hk | done]. }
  cbn [fresh seq fmap list_fmap].
  unfold mbind at 1. unfold M_bind at 1.
  edestruct (exists_grown p 11) as (s2 & -> & G2).
  { apply slices_run with (f := fun zz => _);
      [exact (known_grown _ _ _ _ _ G1 Hk) | done]. }
  cbn [fresh seq fmap list_fmap].
  pose proof G1 as ((_ & Hn1 & _) & _).
  unfold Gates_rangeCheck1.
  edestruct (emit_grown) as (s3 & -> & G3).
  eexists. split; [reflexivity|].
  pose proof (grown_trans _ _ _ _ _ _ _ G1
                (grown_trans _ _ _ _ _ _ _ G2 G3)) as G.
  rewrite Hn1 in G. exact G.
Qed.

(** *** [splitCompactLimb] and the constant path of
    [compactMultiRangeCheck] *)

Lemma lMask_ones : lMask = Z.ones 88.
Proof. reflexivity. Qed.

Lemma splitCompactLimb_unpack_aux (x01 : Z) :
  0 <= x01 ->
  let '(x, y) := splitCompactLimb x01 in
  0 <= x < 2 ^ 88 /\ 0 <= y /\ x + y * 2 ^ 88 = x01 /\
  (y < 2 ^ 88 <-> x01 < 2 ^ 176).
Proof.
  intros H0. unfold splitCompactLimb, L. rewrite lMask_ones.
  rewrite Z.land_ones, Z.shiftr_div_pow2 by lia.
  pose proof (Z.mod_pos_bound x01 (2 ^ 88) ltac:(lia)).
  pose proof (Z.div_mod x01 (2 ^ 88) ltac:(lia)).
  assert (0 <= x01 / 2 ^ 88) by (apply Z.div_pos; lia).
  change (2 ^ 176) with (2 ^ 88 * 2 ^ 88).
  repeat split; lia.
Qed.

(** X1. [splitCompactLimb] cuts a non-negative integer into its low 88 bits
    and the rest: the two parts put it together again, and the high part
    fits in 88 bits exactly when the integer fits in 176. *)
Theorem splitCompactLimb_unpack (x01 : Z) :
  0 <= x01 ->
  0 <= fst (splitCompactLimb x01) < 2 ^ 88 /\
  0 <= snd (splitCompactLimb x01) /\
  fst (splitCompactLimb x01) + snd (splitCompactLimb x01) * 2 ^ 88 = x01 /\
  (snd (splitCompactLimb x01) < 2 ^ 88 <-> x01 < 2 ^ 176).
Proof.
  intros H0. pose proof (splitCompactLimb_unpack_aux x01 H0) as H.
  by destruct (splitCompactLimb x01).
Qed.

(** X2. On constants [compactMultiRangeCheck] throws exactly when [xy] does
    not fit in 176 bits or [z] does not fit in 88, with both values in the
    message; otherwise it returns the two 88-bit halves of [xy], and [z]
    itself, and leaves the circuit as it was. *)
Theorem compactMultiRangeCheck_constants (p xy z : Z) (s : state) :
  0 <= xy -> 0 <= z ->
  (xy < 2 ^ 176 /\ z < 2 ^ 88 ->
   exists x y : Z,
     compactMultiRangeCheck p (Constant xy) (Constant z) s
     = (Ok (new_Field p x, new_Field p y, Constant z), s) /\
     0 <= x < 2 ^ 88 /\ 0 <= y < 2 ^ 88 /\ xy = x + y * 2 ^ 88) /\
  (2 ^ 176 <= xy \/ 2 ^ 88 <= z ->
   compactMultiRangeCheck p (Constant xy) (Constant z) s
   = (Throw (Error
        ("Expected fields to fit in 176 and 88 bits respectively, got "
         +:+ pretty xy +:+ ", " +:+ pretty z)), s)).
Proof.
  intros Hxy Hz.
  unfold compactMultiRangeCheck. cbn [isConstant andb toBigInt toString].
  unfold mbind, M_bind, mret, M_ret, throw.
  rewrite (truthy_shiftr xy twoL) by (unfold twoL, L; lia).
  rewrite (truthy_shiftr z L) by (unfold L; lia).
  rewrite pretty_L, pretty_twoL.
  change (2 ^ twoL) with (2 ^ 176). change (2 ^ L) with (2 ^ 88).
  split.
  - intros [Hxy' Hz']. rewrite !bool_decide_eq_false_2 by lia.
    pose proof (splitCompactLimb_unpack_aux xy Hxy) as Hsplit.
    destruct (splitCompactLimb xy) as [x y].
    exists x, y. split; [done|]. lia.
  - intros Hbig. repeat case_bool_decide; try reflexivity. lia.
Qed.

(** *** [rangeCheck64] on a variable *)

(** X4. On a variable [rangeCheck64] never throws, whether the shape is
    compiled or witnesses are computed: it hands out twelve variables,
    emits the one [rangeCheck0] row, in non-compact mode and with the two
    highest limb slots filled with the constant zero, and returns the four
    twelve-bit limb variables from the highest down. *)
Theorem rangeCheck64_variable (p : Z) (h : nat) (s : state) :
  known s (Var h) ->
  let k := next_var s in
  exists s',
    rangeCheck64 p (Var h) s
    = (Ok (Var (k + 11), Var (k + 10), Var (k + 9), Var (k + 8)), s') /\
    grown 12
      [RangeCheck0 (Var h)
         ([new_Field p 0; new_Field p 0] ++ rev (fresh (k + 8) 4))
         (rev (fresh k 8)) false]
      s s'.
Proof.
  intros Hk k. unfold rangeCheck64. cbn [isConstant].
  unfold mbind at 1. unfold M_bind at 1.
  edestruct (exists_grown p 8) as (s1 & -> & G1).
  { apply slices_run with (f := fun xx => _); [exact Hk | done]. }
  cbn [fresh seq fmap list_fmap].
  unfold mbind at 1. unfold M_bind at 1.
  edestruct (exists_grown p 4) as (s2 & -> & G2).
  { apply slices_run with (f := fun xx => _);
      [exact (known_grown _ _ _ _ _ G1 Hk) | done]. }
  cbn [fresh seq fmap list_fmap].
  pose proof G1 as ((_ & Hn1 & _) & _).
  unfold mbind at 1. unfold M_bind at 1. unfold Gates_rangeCheck0.
  edestruct (emit_grown) as (s3 & -> & G3).
  eexists. split.
  - unfold mret, M_ret. rewrite Hn1. fold k. repeat f_equal; lia.
  - pose proof (grown_trans _ _ _ _ _ _ _ G1
                  (grown_trans _ _ _ _ _ _ _ G2 G3)) as G.
    rewrite Hn1 in G. exact G.
Qed.

(** X5. While witnesses are computed, the twelve variables [rangeCheck64]
    hands out for a variable of value [v] hold, in the order they are
    handed out, eight crumbs and four twelve-bit limbs that recompose to
    the low 64 bits of [v]: to [v] itself exactly when it fits in 64
    bits. *)
Theorem rangeCheck64_witness (p : Z) (h : nat) (s : state) (v : Z) :
  2 ^ 12 <= p ->
  proving s = true -> (h < next_var s)%nat -> values s !! h = Some v ->
  let k := next_var s in
  exists (s' : state) (ws : list Z),
    rangeCheck64 p (Var h) s
    = (Ok (Var (k + 11), Var (k + 10), Var (k + 9), Var (k + 8)), s') /\
    witness_of s' k 12 = Some <$> ws /\
    Forall2 (fun w l => 0 <= l < 2 ^ w) (crumbs_limbs 4) ws /\
    pack (crumbs_limbs 4) ws = v mod 2 ^ 64 /\
    (0 <= v -> (pack (crumbs_limbs 4) ws = v <-> v < 2 ^ 64)).
Proof.
  intros Hp Hpr Ha Hval k.
  assert (Hv : toBigInt (Var h) s = (Ok v, s)).
  { simpl. by rewrite Hpr, Hval. }
  set (f := fun xx : Z =>
    [bitSlice xx 0 2; bitSlice xx 2 2; bitSlice xx 4 2; bitSlice xx 6 2;
     bitSlice xx 8 2; bitSlice xx 10 2; bitSlice xx 12 2; bitSlice xx 14 2]).
  set (g := fun xx : Z =>
    [bitSlice xx 16 12; bitSlice xx 28 12; bitSlice xx 40 12;
     bitSlice xx 52 12]).
  destruct (two_slicings p (Var h) s v f g 8 4 Hpr Ha Hv) as [E1 E2];
    [done..|].
  fold k in E1, E2.
  assert (Hws : f v ++ g v = slices v 0 (crumbs_limbs 4)) by reflexivity.
  assert (Hw12 : Forall (fun w => 0 <= w <= 12) (crumbs_limbs 4)).
  { unfold crumbs_limbs. simpl. repeat constructor; lia. }
  assert (Hw0 : Forall (fun w => 0 <= w) (crumbs_limbs 4)).
  { eapply Forall_impl; [exact Hw12|]. simpl. lia. }
  pose proof (slices_small p v 0 _ Hw12 Hp) as Hsmall.
  rewrite <- Hws in Hsmall. apply Forall_app in Hsmall as [Hf Hg].
  set (gate := RangeCheck0 (Var h)
         ([new_Field p 0; new_Field p 0] ++ rev (fresh (k + 8) 4))
         (rev (fresh k 8)) false).
  exists (mkState true (k + 8 + 4)
            (seed p (k + 8) (g v) (seed p k (f v) (values s)))
            (gates s ++ [gate])),
         (slices v 0 (crumbs_limbs 4)).
  split; [|split; [|split; [|split]]].
  - unfold rangeCheck64. cbn [isConstant].
    unfold f, g in E1, E2. cbv beta in E1, E2.
    unfold mbind at 1. unfold M_bind at 1. rewrite E1.
    cbn [fresh seq fmap list_fmap].
    unfold mbind at 1. unfold M_bind at 1. rewrite E2.
    cbn [fresh seq fmap list_fmap].
    unfold mbind, M_bind, Gates_rangeCheck0, emit, modify, mret, M_ret.
    cbn [proving next_var values gates].
    f_equal. repeat f_equal; lia.
  - rewrite (witness_of_app _ k 8 4), <- Hws, fmap_app.
    pose proof (witness_of_two p k (f v) (g v) (values s) true
                  (gates s ++ [gate]) (k + 8 + 4) Hf Hg) as [W1 W2].
    cbn [Datatypes.length f g] in W1, W2.
    by rewrite <- W1, <- W2.
  - by apply slices_in_range.
  - rewrite pack_slices by done. by rewrite Z.div_1_r.
  - intros Hv0. rewrite pack_slices by done. rewrite Z.div_1_r.
    change (foldr Z.add 0 (crumbs_limbs 4)) with 64.
    split.
    + intros Heq. rewrite <- Heq. apply Z.mod_pos_bound. lia.
    + intros Hlt. apply Z.mod_small. lia.
Qed.

(** X3. The four limbs [rangeCheck64] returns for a constant that fits in 64
    bits are its bits 16 to 63 in twelve-bit digits, the highest digit
    first: read from the last to the first they recompose to the value
    without its low 16 bits. *)
Theorem rangeCheck64_constant_digits (p v : Z) (s : state) :
  2 ^ 12 <= p -> 0 <= v < 2 ^ 64 ->
  exists l52 l40 l28 l16 : Z,
    rangeCheck64 p (Constant v) s
    = (Ok (Constant l52, Constant l40, Constant l28, Constant l16), s) /\
    Forall (fun l => 0 <= l < 2 ^ 12) [l16; l28; l40; l52] /\
    pack [12; 12; 12; 12] [l16; l28; l40; l52] = v / 2 ^ 16.
Proof.
  intros Hp Hv.
  exists (bitSlice v 52 12), (bitSlice v 40 12), (bitSlice v 28 12),
         (bitSlice v 16 12).
  assert (Hsl : forall a, new_Field p (bitSlice v a 12)
                          = Constant (bitSlice v a 12)).
  { intros a. apply new_Field_small.
    pose proof (bitSlice_range v a 12 ltac:(lia)). lia. }
  split; [|split].
  - unfold rangeCheck64. cbn [isConstant toBigInt].
    unfold mbind, M_bind, mret, M_ret.
    change (Z.shiftl 1 64) with (2 ^ 64).
    destruct (Z.geb_spec v (2 ^ 64)) as [|_]; [lia|]. by rewrite !Hsl.
  - repeat constructor; by apply bitSlice_range.
  - change [bitSlice v 16 12; bitSlice v 28 12; bitSlice v 40 12;
            bitSlice v 52 12] with (slices v 16 [12; 12; 12; 12]).
    rewrite pack_slices by (repeat constructor; lia).
    apply Z.mod_small. split.
    + apply Z.div_pos; lia.
    + apply Z.div_lt_upper_bound; [lia|]. simpl. lia.
Qed.

(** *** [rangeCheck1Helper] *)

(** X7. While witnesses are computed, the variables [rangeCheck1Helper] hands
    out for [z] hold limbs that tile its low 88 bits: read from bit 0
    upwards, the eleven crumbs of the next row (handed out second) and
    then the thirteen limbs of the current row (handed out first)
    recompose to the value of [z] exactly when it fits in 88 bits. The
    call does not throw when it does not fit. *)
Theorem rangeCheck1Helper_witness (p : Z) (x64 x76 y64 y76 z yz : Field)
        (s : state) (v : Z) :
  2 ^ 12 <= p ->
  proving s = true -> allocated s z -> toBigInt z s = (Ok v, s) ->
  let k := next_var s in
  exists (s' : state) (ws : list Z),
    rangeCheck1Helper p (mkInputs1 x64 x76 y64 y76 z yz) s = (Ok tt, s') /\
    next_var s' = (k + 24)%nat /\
    gates s' = gates s ++ [row1 x64 x76 y64 y76 z yz k] /\
    witness_of s' (k + 13) 11 ++ witness_of s' k 13 = Some <$> ws /\
    Forall2 (fun w l => 0 <= l < 2 ^ w) (widths1_next ++ widths1_curr) ws /\
    pack (widths1_next ++ widths1_curr) ws = v mod 2 ^ 88 /\
    (0 <= v -> (pack (widths1_next ++ widths1_curr) ws = v <-> v < 2 ^ 88)).
Proof.
  intros Hp Hpr Ha Hv k.
  set (f := fun zz : Z =>
    [bitSlice zz 22 2; bitSlice zz 24 2; bitSlice zz 26 2;
     bitSlice zz 28 2; bitSlice zz 30 2; bitSlice zz 32 2;
     bitSlice zz 34 2; bitSlice zz 36 2; bitSlice zz 38 12;
     bitSlice zz 50 12; bitSlice zz 62 12; bitSlice zz 74 12;
     bitSlice zz 86 2]).
  set (g := fun zz : Z =>
    [bitSlice zz 0 2; bitSlice zz 2 2; bitSlice zz 4 2;
     bitSlice zz 6 2; bitSlice zz 8 2; bitSlice zz 10 2;
     bitSlice zz 12 2; bitSlice zz 14 2; bitSlice zz 16 2;
     bitSlice zz 18 2; bitSlice zz 20 2]).
  destruct (two_slicings p z s v f g 13 11 Hpr Ha Hv) as [E1 E2]; [done..|].
  fold k in E1, E2.
  set (widths := widths1_next ++ widths1_curr).
  assert (Hws : g v ++ f v = slices v 0 widths) by reflexivity.
  assert (Hw12 : Forall (fun w => 0 <= w <= 12) widths).
  { unfold widths, widths1_next, widths1_curr. simpl.
    repeat constructor; lia. }
  assert (Hw0 : Forall (fun w => 0 <= w) widths).
  { eapply Forall_impl; [exact Hw12|]. simpl. lia. }
  pose proof (slices_small p v 0 _ Hw12 Hp) as Hsmall.
  rewrite <- Hws in Hsmall. apply Forall_app in Hsmall as [Hg Hf].
  exists (mkState true (k + 13 + 11)
            (seed p (k + 13) (g v) (seed p k (f v) (values s)))
            (gates s ++ [row1 x64 x76 y64 y76 z yz k])),
         (slices v 0 widths).
  split; [|split; [|split; [|split; [|split; [|split]]]]].
  - unfold rangeCheck1Helper.
    unfold f, g in E1, E2. cbv beta in E1, E2.
    unfold mbind at 1. unfold M_bind at 1. rewrite E1.
    cbn [fresh seq fmap list_fmap].
    unfold mbind at 1. unfold M_bind at 1. rewrite E2.
    cbn [fresh seq fmap list_fmap].
    reflexivity.
  - simpl. lia.
  - done.
  - rewrite <- Hws, fmap_app.
    pose proof (witness_of_two p k (f v) (g v) (values s) true
                  (gates s ++ [row1 x64 x76 y64 y76 z yz k])
                  (k + 13 + 11) Hf Hg) as [W1 W2].
    cbn [Datatypes.length f g] in W1, W2.
    by rewrite <- W1, <- W2.
  - by apply slices_in_range.
  - rewrite pack_slices by done. by rewrite Z.div_1_r.
  - intros Hv0. rewrite pack_slices by done. rewrite Z.div_1_r.
    change (foldr Z.add 0 widths) with 88.
    split.
    + intros Heq. rewrite <- Heq. apply Z.mod_pos_bound. lia.
    + intros Hlt. apply Z.mod_small. lia.
Qed.

(** *** [compactMultiRangeCheck] with a variable among its inputs *)

(** What [compactMultiRangeCheck] does once the two halves [Var k] and
    [Var (k + 1)] of [xy] were handed out. *)
Lemma compact_rows (p : Z) (xy z : Field) (k : nat) (s1 : state) :
  next_var s1 = (k + 2)%nat ->
  known s1 z -> known s1 (Var k) -> known s1 (Var (k + 1)) ->
  exists s',
    ('(z64, z76) ← rangeCheck0Helper p z false;
     '(x64, x76) ← rangeCheck0Helper p (Var k) true;
     rangeCheck1Helper p (mkInputs1 z64 z76 x64 x76 (Var (k + 1)) xy);;
     mret (Var k, Var (k + 1), z)) s1
    = (Ok (Var k, Var (k + 1), z), s') /\
    grown 52
      [row0 z (k + 2) false;
       row0 (Var k) (k + 16) true;
       row1 (Var (k + 14)) (Var (k + 15)) (Var (k + 28)) (Var (k + 29))
            (Var (k + 1)) xy (k + 30)]
      s1 s'.
Proof.
  intros Hn Hz Hx Hy.
  destruct (rangeCheck0Helper_grown p z false s1 Hz) as (s2 & E2 & G2).
  pose proof (known_grown _ _ _ _ _ G2 Hx) as Hx2.
  destruct (rangeCheck0Helper_grown p (Var k) true s2 Hx2) as (s3 & E3 & G3).
  pose proof (known_grown _ _ _ _ _ G3 (known_grown _ _ _ _ _ G2 Hy)) as Hy3.
  pose proof G2 as ((_ & N2 & _) & _). pose proof G3 as ((_ & N3 & _) & _).
  edestruct (rangeCheck1Helper_grown p) as (s4 & E4 & G4); [exact Hy3|].
  exists s4. split.
  - unfold mbind at 1. unfold M_bind at 1. rewrite E2.
    unfold mbind at 1. unfold M_bind at 1. rewrite E3.
    unfold mbind at 1. unfold M_bind at 1. rewrite E4.
    reflexivity.
  - pose proof (grown_trans _ _ _ _ _ _ _ G2
                  (grown_trans _ _ _ _ _ _ _ G3 G4)) as G.
    rewrite N3, N2, Hn in G. cbn [app] in G.
    replace (k + 2 + 12)%nat with (k + 14)%nat in G by lia.
    replace (k + 2 + 13)%nat with (k + 15)%nat in G by lia.
    replace (k + 2 + 14)%nat with (k + 16)%nat in G by lia.
    replace (k + 16 + 12)%nat with (k + 28)%nat in G by lia.
    replace (k + 16 + 13)%nat with (k + 29)%nat in G by lia.
    replace (k + 16 + 14)%nat with (k + 30)%nat in G by lia.
    exact G.
Qed.

Lemma split_run (xy : Field) (s : state) (v : Z) :
  toBigInt xy s = (Ok v, s) ->
  (xyv ← toBigInt xy;
   let '(x, y) := splitCompactLimb xyv in mret [x; y]) s
  = (Ok [fst (splitCompactLimb v); snd (splitCompactLimb v)], s).
Proof. intros Hv. unfold mbind, M_bind, mret, M_ret. by rewrite Hv. Qed.

(** X8. With a variable among [xy] and [z], [compactMultiRangeCheck] never
    throws, whatever the value of a constant input: it hands out two
    variables for the halves of [xy] and returns them with [z]; it sends
    [z] through a non-compact [rangeCheck0] row, the low half through a
    compact one, and the high half, with [xy] itself, through the
    [rangeCheck1] rows: 54 variables in all. *)
Theorem compactMultiRangeCheck_variable (p : Z) (xy z : Field) (s : state) :
  isConstant xy && isConstant z = false ->
  known s xy -> known s z ->
  let k := next_var s in
  exists s',
    compactMultiRangeCheck p xy z s = (Ok (Var k, Var (k + 1), z), s') /\
    grown 54
      [row0 z (k + 2) false;
       row0 (Var k) (k + 16) true;
       row1 (Var (k + 14)) (Var (k + 15)) (Var (k + 28)) (Var (k + 29))
            (Var (k + 1)) xy (k + 30)]
      s s'.
Proof.
  intros Hc Hxy Hz k. unfold compactMultiRangeCheck. rewrite Hc.
  unfold mbind at 1. unfold M_bind at 1.
  edestruct (exists_grown p 2) as (s1 & -> & G1).
  { intros Hpr. destruct (toBigInt_known s xy Hxy Hpr) as [v Hv].
    eexists. split; [by apply split_run|done]. }
  cbn [fresh seq fmap list_fmap]. fold k.
  pose proof G1 as ((_ & N1 & _) & _). fold k in N1.
  destruct (compact_rows p xy z k s1 N1) as (s' & E & G).
  { by apply known_grown with 2%nat [] s. }
  { apply (known_new 2 [] s s1); [done | fold k; lia]. }
  { apply (known_new 2 [] s s1); [done | fold k; lia]. }
  exists s'. split.
  - replace (S k) with (k + 1)%nat by lia. exact E.
  - exact (grown_trans _ _ _ _ _ _ _ G1 G).
Qed.

(** X9. While witnesses are computed, the two variables
    [compactMultiRangeCheck] returns for a packed value [v] hold its low
    88 bits and the rest: they put [v] together again. *)
Theorem compactMultiRangeCheck_witness (p : Z) (xy z : Field) (s : state)
        (v : Z) :
  2 ^ 88 <= p -> 0 <= v < p ->
  isConstant xy && isConstant z = false ->
  proving s = true -> toBigInt xy s = (Ok v, s) -> known s z ->
  let k := next_var s in
  exists (s' : state) (x y : Z),
    compactMultiRangeCheck p xy z s = (Ok (Var k, Var (k + 1), z), s') /\
    values s' !! k = Some x /\ values s' !! (k + 1)%nat = Some y /\
    0 <= x < 2 ^ 88 /\ 0 <= y /\ v = x + 2 ^ 88 * y.
Proof.
  intros Hp Hv0 Hc Hpr Hv Hz k.
  pose proof (splitCompactLimb_unpack_aux v ltac:(lia)) as Hsplit.
  destruct (splitCompactLimb v) as [x y] eqn:Hxy.
  destruct Hsplit as (Hx & Hy & Hsum & _).
  set (s1 := mkState true (k + 2) (seed p k [x; y] (values s)) (gates s)).
  assert (E1 : exists_ p 2
                 (xyv ← toBigInt xy;
                  let '(x, y) := splitCompactLimb xyv in mret [x; y]) s
               = (Ok (fresh k 2), s1)).
  { apply exists_proving; [done | | done].
    rewrite (split_run xy s v Hv). by rewrite Hxy. }
  assert (Hk0 : values s1 !! k = Some x).
  { simpl. replace k with (k + 0)%nat at 1 by lia.
    rewrite (seed_lookup_new p k [x; y] _ 0 x) by done.
    by rewrite Z.mod_small by lia. }
  assert (Hk1 : values s1 !! (k + 1)%nat = Some y).
  { simpl. rewrite (seed_lookup_new p k [x; y] _ 1 y) by done.
    rewrite Z.mod_small; [done|]. nia. }
  destruct (compact_rows p xy z k s1 eq_refl) as (s' & E & G).
  { destruct z as [c|h]; [done|]. simpl in *. intros _.
    specialize (Hz Hpr). unfold seed. apply lookup_union_is_Some. by right. }
  { intros _. by rewrite Hk0. }
  { intros _. by rewrite Hk1. }
  destruct G as (_ & Hold & _).
  exists s', x, y. split; [|split; [|split; [|split; [done|split; [done|lia]]]]].
  - unfold compactMultiRangeCheck. rewrite Hc.
    unfold mbind at 1. unfold M_bind at 1. rewrite E1.
    cbn [fresh seq fmap list_fmap].
    replace (S k) with (k + 1)%nat by lia. exact E.
  - rewrite Hold by (simpl; lia). exact Hk0.
  - rewrite Hold by (simpl; lia). exact Hk1.
Qed.

End RangeCheckMore.

(** ** Further properties of the indexed Merkle map *)

Module MerkleMapMore.
Import Circuit MerkleMap Vocabulary MerkleMapFacts.

Section WithHash.
Context (p : Z) (hash : list Z -> Z).

#[local] Abbreviation empty := (MerkleMap.empty hash).
#[local] Abbreviation canonical := (canonical_empty hash).
#[local] Abbreviation ok := (cache_ok hash).
#[local] Abbreviation value_of := (node_value hash).
#[local] Abbreviation in_order := (cache_in_order hash).

(** *** The cache of empty-subtree hashes only grows *)

(** One pass of the loop of [empty]. *)
Lemma empty_loop_pass (k i0 : nat) (a : JsArray) :
  empty_loop hash (S k) i0 a
  = match (match i0 with O => None | S j => arr_get a j end) with
    | Some zero => empty_loop hash k (S i0) (arr_set a i0 (hash [zero; zero]))
    | None => (Throw (TypeError "cannot use undefined as a bigint"), a)
    end.
Proof.
  cbn [empty_loop]. unfold mbind, M_bind, gets, modify.
  by destruct (match i0 with O => None | S j => arr_get a j end).
Qed.

Lemma empty_loop_keeps (k : nat) :
  forall (i0 : nat) (a : JsArray),
    (arr_length a <= arr_length (snd (empty_loop hash k i0 a)))%nat /\
    forall i, (i < i0)%nat ->
              arr_get (snd (empty_loop hash k i0 a)) i = arr_get a i.
Proof.
  induction k as [|k IH]; intros i0 a; [done|].
  rewrite empty_loop_pass.
  destruct (match i0 with O => None | S j => arr_get a j end) as [zero|];
    [|done].
  destruct (IH (S i0) (arr_set a i0 (hash [zero; zero]))) as [Hlen Hget].
  split.
  - etrans; [|exact Hlen]. simpl. lia.
  - intros i Hi. rewrite Hget by lia.
    unfold arr_get, arr_set. simpl. apply lookup_insert_ne. lia.
Qed.

(** X10. [emptyNodes] is append-only. Whatever state it is in, a call of
    [empty] leaves every position below its length as it was and never
    shortens it; when [level] is below the length already, the call
    writes nothing and returns the stored entry. *)
Theorem empty_append_only (level : nat) (a : JsArray) :
  (arr_length a <= arr_length (snd (empty level a)))%nat /\
  (forall i, (i < arr_length a)%nat ->
             arr_get (snd (empty level a)) i = arr_get a i) /\
  ((level < arr_length a)%nat ->
   empty level a = (Ok (arr_get a level), a)).
Proof.
  unfold MerkleMap.empty, mbind, M_bind, gets.
  destruct (empty_loop_keeps (S level - arr_length a) (arr_length a) a)
    as [Hlen Hget].
  split; [|split].
  - by destruct (empty_loop hash _ _ a) as [[[]|e] a'].
  - intros i Hi. specialize (Hget i Hi).
    by destruct (empty_loop hash _ _ a) as [[[]|e] a'].
  - intros Hlev. by replace (S level - arr_length a)%nat with 0%nat by lia.
Qed.

(** *** [setLeafNode] right after the constructor *)

Lemma constructor_inv (h : nat) (a a' : JsArray) (m : IndexedMerkleMap) :
  constructor p hash h a = (Ok m, a') ->
  (1 <= h)%nat /\ height m = None /\ nodes (data m) = replicate h ∅.
Proof.
  unfold constructor, mbind, M_bind.
  destruct h as [|top]; [done|].
  destruct (MerkleMap.empty hash top a) as [[[v|]|e] a1]; simpl; [|done..].
  intros [= <- _]. simpl. split; [lia | done].
Qed.

Lemma node_at_beyond (w : world) (lev : nat) (j : Z) :
  (Datatypes.length (nodes (data (this w))) <= lev)%nat ->
  node_at w lev j = None.
Proof. intros Hlen. unfold node_at. by rewrite lookup_ge_None_2. Qed.

(** X11. On a map as the constructor returns it, of whatever height,
    [setLeafNode(index, leaf)] writes the leaf hash and nothing else: no
    ancestor is hashed, because [height] was never assigned. The cache
    then holds [leaf] at [(0, index)] and nothing anywhere else; [root]
    and [emptyNodes] are untouched. *)
Theorem setLeafNode_after_constructor (h : nat) (a a' : JsArray)
        (m : IndexedMerkleMap) (index leaf : Z) :
  constructor p hash h a = (Ok m, a') ->
  exists w',
    setLeafNode hash index leaf (mkWorld a' m) = (Ok tt, w') /\
    emptyNodes w' = a' /\
    root (this w') = root m /\
    forall lev j,
      node_at w' lev j
      = if decide (lev = 0%nat /\ j = index) then Some leaf else None.
Proof.
  intros (Hh & Hheight & Hnodes)%constructor_inv.
  destruct (write_node_ok 0 index leaf (mkWorld a' m))
    as (w0 & E0 & C0 & F0 & Hleaf & Hold).
  { simpl. rewrite Hnodes, length_replicate. lia. }
  exists w0. split; [|split; [done|split; [apply F0|]]].
  - unfold setLeafNode. unfold mbind at 1. unfold M_bind at 1. rewrite E0.
    unfold mbind, M_bind, gets.
    destruct F0 as (_ & _ & -> & _). simpl. by rewrite Hheight.
  - intros lev j. case_decide as Hd.
    + by destruct Hd as [-> ->].
    + rewrite Hold by (destruct (decide (lev = 0%nat)); tauto).
      unfold node_at. simpl. rewrite Hnodes.
      destruct (decide (lev < h)%nat).
      * by rewrite lookup_replicate_2.
      * by rewrite lookup_ge_None_2 by (rewrite length_replicate; lia).
Qed.

(** *** [setLeafNode] on a map whose [height] is set *)

(** What a call of [setLeafNode] leaves behind, entry by entry. *)
Lemma setLeafNode_run (H : nat) (index leaf : Z) (w : world) :
  - 2 ^ 53 <= index < 2 ^ 53 ->
  height (this w) = Some H -> (1 <= H)%nat ->
  Datatypes.length (nodes (data (this w))) = H ->
  ok (emptyNodes w) ->
  exists w',
    setLeafNode hash index leaf w = (Ok tt, w') /\
    same_fields w w' /\ ok (emptyNodes w') /\
    node_at w' 0 index = Some leaf /\
    (forall lev, (1 <= lev < H)%nat ->
       node_at w' lev (ancestor lev index)
       = Some (hash [value_of w' (lev - 1) (ancestor lev index * 2);
                     value_of w' (lev - 1) (ancestor lev index * 2 + 1)])) /\
    (forall lev j, (H <= lev)%nat \/ j <> ancestor lev index ->
                   node_at w' lev j = node_at w lev j).
Proof.
  intros Hindex Hheight HH Hrows Hok.
  destruct (write_node_ok 0 index leaf w)
    as (w0 & E0 & C0 & F0 & Hleaf & Hold); [lia|].
  destruct (setLeafNode_loop_ok hash (H - 1) 1 index w0)
    as (w' & E & F & Hok' & Hframe & Hdata).
  { done. }
  { lia. }
  { destruct F0 as (_ & _ & _ & _ & _ & ->). lia. }
  { by rewrite C0. }
  { change (1 - 1)%nat with 0%nat. by rewrite Hleaf. }
  exists w'. split; [|split; [|split; [done|split; [|split]]]].
  - unfold setLeafNode. unfold mbind at 1. unfold M_bind at 1. rewrite E0.
    unfold mbind, M_bind, gets.
    destruct F0 as (_ & _ & -> & _). rewrite Hheight. exact E.
  - by apply same_fields_trans with w0.
  - rewrite Hframe by (left; lia). exact Hleaf.
  - intros lev Hlev.
    pose proof (Hdata (lev - 1)%nat ltac:(lia)) as Hd.
    change (1 + (lev - 1))%nat with (S (lev - 1)) in Hd.
    assert (Hs : S (lev - 1) = lev) by lia.
    rewrite !Hs in Hd. exact Hd.
  - intros lev j Hcase. rewrite Hframe, Hold; [done| |].
    + destruct lev as [|lev]; [right|by left].
      destruct Hcase as [|Hj]; [lia | done].
    + destruct Hcase as [|Hj]; [right; left; lia|].
      right; right. by replace (S lev - 1)%nat with lev by lia.
Qed.

(** A position is the left or the right child of its parent. *)
Lemma child_parent (c j : Z) : c = j * 2 \/ c = j * 2 + 1 -> c / 2 = j.
Proof. intros [->| ->]; Z.div_mod_to_equations; lia. Qed.

Lemma value_of_same (w w' : world) (lev : nat) (j : Z) :
  node_at w' lev j = node_at w lev j ->
  value_of w' lev j = value_of w lev j.
Proof. unfold node_value. by intros ->. Qed.

(** [setLeafNode] keeps the cache in order. *)
Lemma setLeafNode_in_order (H : nat) (index leaf : Z) (w : world) :
  - 2 ^ 53 <= index < 2 ^ 53 ->
  height (this w) = Some H -> (1 <= H)%nat ->
  in_order H w -> ok (emptyNodes w) ->
  exists w',
    setLeafNode hash index leaf w = (Ok tt, w') /\
    height (this w') = Some H /\
    in_order H w' /\ ok (emptyNodes w') /\ same_fields w w' /\
    leaf_row w' = <[index := leaf]> (leaf_row w) /\
    (forall lev j, (lev < H)%nat -> j = ancestor lev index ->
                   is_Some (node_at w' lev j)) /\
    (forall lev j, (H <= lev)%nat \/ j <> ancestor lev index ->
                   node_at w' lev j = node_at w lev j).
Proof.
  intros Hindex Hheight HH (Hrows & Hhash & Hup) Hok.
  destruct (setLeafNode_run H index leaf w Hindex Hheight HH Hrows Hok)
    as (w' & E & F & Hok' & Hleaf & Hpath & Hframe).
  assert (Hrows' : Datatypes.length (nodes (data (this w'))) = H).
  { destruct F as (_ & _ & _ & _ & _ & ->). exact Hrows. }
  assert (Hcached : forall lev j, (lev < H)%nat -> j = ancestor lev index ->
                                  is_Some (node_at w' lev j)).
  { intros [|lev] j Hlev ->; [cbn [ancestor]; by rewrite Hleaf|].
    by rewrite Hpath by lia. }
  exists w'. split; [done|]. split.
  { destruct F as (_ & _ & -> & _). exact Hheight. }
  split; [|split; [done|split; [done|split]]].
  - split; [done|split].
    + intros lev j v Hlev Hv.
      destruct (decide (lev < H)%nat) as [Hlt|Hge];
        [|by rewrite node_at_beyond in Hv by lia].
      destruct (decide (j = ancestor lev index)) as [->|Hne].
      * rewrite Hpath in Hv by lia. by injection Hv as <-.
      * rewrite Hframe in Hv by (by right).
        rewrite (Hhash lev j v Hlev Hv).
        assert (Hchild : forall c, c = j * 2 \/ c = j * 2 + 1 ->
                  value_of w' (lev - 1) c = value_of w (lev - 1) c).
        { intros c Hc. apply value_of_same, Hframe. right. intros Heq.
          apply Hne. pose proof (child_parent c j Hc) as Hpar.
          rewrite <- Hpar, Heq, <- ancestor_succ_r. f_equal. lia. }
        rewrite !Hchild by tauto. done.
    + intros lev j Hlev Hsome.
      destruct (decide (j / 2 = ancestor (S lev) index)) as [Hpar|Hpar].
      * by apply Hcached.
      * rewrite Hframe by (by right). apply Hup; [done|].
        rewrite <- Hframe; [done|]. right. intros Heq.
        apply Hpar. by rewrite Heq, <- ancestor_succ_r.
  - unfold leaf_row.
    assert (Hrow : forall j, node_at w' 0 j
                             = (<[index := leaf]> (leaf_row w)) !! j).
    { intros j. destruct (decide (j = index)) as [->|Hne].
      - by rewrite Hleaf, lookup_insert_eq.
      - rewrite Hframe by (by right). rewrite lookup_insert_ne by done.
        unfold node_at, leaf_row.
        destruct (nodes (data (this w)) !! 0%nat) eqn:Hr; [done|].
        apply lookup_ge_None in Hr. lia. }
    unfold node_at in Hrow.
    destruct (nodes (data (this w')) !! 0%nat) as [r'|] eqn:Hr'.
    + simpl in *. apply map_eq. intros j. apply Hrow.
    + apply lookup_ge_None in Hr'. lia.
  - split; [exact Hcached | exact Hframe].
Qed.

(** In a cache in order, a read stands for the hash of the subtree
    computed from scratch from the leaf row, and a node that is not
    cached roots an empty subtree. *)
Lemma in_order_merkle (H : nat) (w : world) :
  in_order H w ->
  forall lev j, (lev < H)%nat ->
    value_of w lev j = merkle hash (leaf_row w) lev j /\
    (node_at w lev j = None ->
     merkle hash (leaf_row w) lev j = canonical lev).
Proof.
  intros (Hrows & Hhash & Hup).
  induction lev as [|lev IH]; intros j Hlev.
  - unfold node_value, node_at, leaf_row. simpl.
    destruct (nodes (data (this w)) !! 0%nat) as [r|] eqn:Hr.
    + simpl. split; [done|]. by intros ->.
    + apply lookup_ge_None in Hr. lia.
  - cbn [merkle].
    destruct (IH (j * 2) ltac:(lia)) as [Hl Hl0].
    destruct (IH (j * 2 + 1) ltac:(lia)) as [Hr Hr0].
    destruct (node_at w (S lev) j) as [v|] eqn:Hv.
    + split; [|done]. unfold node_value. rewrite Hv. simpl.
      rewrite (Hhash (S lev) j v ltac:(lia) Hv).
      replace (S lev - 1)%nat with lev by lia. by rewrite Hl, Hr.
    + assert (Hnone : forall c, c = j * 2 \/ c = j * 2 + 1 ->
                                node_at w lev c = None).
      { intros c Hc. destruct (node_at w lev c) eqn:Hcv; [|done].
        destruct (Hup lev c Hlev ltac:(by rewrite Hcv)) as [v' Hv'].
        rewrite (child_parent _ j Hc) in Hv'. congruence. }
      rewrite Hl0, Hr0 by (apply Hnone; tauto).
      split; [|done]. unfold node_value. by rewrite Hv.
Qed.

(** Two caches in order for the same leaf row that cache the same
    positions hold the same entries. *)
Lemma in_order_ext (H : nat) (w1 w2 : world) :
  in_order H w1 -> in_order H w2 ->
  leaf_row w1 = leaf_row w2 ->
  (forall lev j, is_Some (node_at w1 lev j) <-> is_Some (node_at w2 lev j)) ->
  forall lev j, node_at w1 lev j = node_at w2 lev j.
Proof.
  intros O1 O2 Hrow Hsome lev j.
  destruct (decide (lev < H)%nat) as [Hlt|Hge].
  - destruct (in_order_merkle H w1 O1 lev j Hlt) as [V1 _].
    destruct (in_order_merkle H w2 O2 lev j Hlt) as [V2 _].
    specialize (Hsome lev j). unfold node_value in V1, V2.
    destruct (node_at w1 lev j) as [v1|], (node_at w2 lev j) as [v2|];
      simpl in *.
    + congruence.
    + by destruct (proj1 Hsome ltac:(done)).
    + by destruct (proj2 Hsome ltac:(done)).
    + done.
  - destruct O1 as (L1 & _), O2 as (L2 & _).
    by rewrite !node_at_beyond by lia.
Qed.

(** A map with [H] rows and nothing in its cache is in order. *)
Lemma blank_in_order (H : nat) (w : world) :
  nodes (data (this w)) = replicate H ∅ -> in_order H w.
Proof.
  intros Hnodes.
  assert (Hnone : forall lev j, node_at w lev j = None).
  { intros lev j. unfold node_at. rewrite Hnodes.
    destruct (decide (lev < H)%nat).
    - by rewrite lookup_replicate_2.
    - by rewrite lookup_ge_None_2 by (rewrite length_replicate; lia). }
  split; [by rewrite Hnodes, length_replicate|].
  split.
  - intros lev j v _ Hv. by rewrite Hnone in Hv.
  - intros lev j _ [v Hv]. by rewrite Hnone in Hv.
Qed.

(** X12. [setLeafNode] keeps the node cache in order: on a map whose
    [height] field holds [H >= 1] and whose cache is in order (every
    cached node above the leaf row is the hash of what the cache stands
    for at its children, and the parent of every cached node is cached),
    with [emptyNodes] holding canonical hashes, and for an [index] with
    [-2^53 <= index < 2^53], where the position of a sibling does not
    round, it returns normally, and all three still hold. *)
Theorem setLeafNode_keeps_order (H : nat) (index leaf : Z) (w : world) :
  - 2 ^ 53 <= index < 2 ^ 53 ->
  height (this w) = Some H -> (1 <= H)%nat ->
  in_order H w -> ok (emptyNodes w) ->
  exists w',
    setLeafNode hash index leaf w = (Ok tt, w') /\
    height (this w') = Some H /\
    in_order H w' /\ ok (emptyNodes w').
Proof.
  intros Hindex Hheight HH Hord Hok.
  destruct (setLeafNode_in_order H index leaf w Hindex Hheight HH Hord Hok)
    as (w' & E & Hh & O & K & _).
  by exists w'.
Qed.

(** X13. In a cache in order with [H] rows, whatever the [height] field
    holds, every read below row [H] agrees with a from-scratch
    recomputation from the leaf row: [getNode(lev, j, false)] returns the
    Merkle hash of the subtree at [(lev, j)]; a cached node holds that
    hash, and a node that is not cached roots a subtree without leaves,
    whose hash is the canonical empty hash [getNode] falls back to. *)
Theorem getNode_reads_merkle (H : nat) (w : world) (lev : nat) (j : Z) :
  in_order H w -> ok (emptyNodes w) -> (lev < H)%nat ->
  fst (getNode hash lev j false w)
  = Ok (Some (merkle hash (leaf_row w) lev j)) /\
  (forall v, node_at w lev j = Some v -> v = merkle hash (leaf_row w) lev j) /\
  (node_at w lev j = None -> merkle hash (leaf_row w) lev j = canonical lev).
Proof.
  intros Hord Hok Hlev.
  destruct (in_order_merkle H w Hord lev j Hlev) as [Hv Hnone].
  split; [|split; [|done]].
  - destruct (getNode_value hash lev j false w Hok) as (w' & -> & _);
      [done|].
    simpl. by rewrite Hv.
  - intros v Hc. rewrite <- Hv. unfold node_value. by rewrite Hc.
Qed.

(** X14. After [setLeafNode(index, leaf)] on a map whose [height] field
    holds [H >= 1] and whose cache is in order, for an [index] with
    [-2^53 <= index < 2^53], the entry of the top row on the path is the
    Merkle hash, computed from scratch, of the leaf row with [leaf] put
    at [index]; for an [index] within the capacity [2^(H-1)] of the tree
    this is position 0, the root hash. *)
Theorem setLeafNode_top_hash (H : nat) (index leaf : Z) (w : world) :
  - 2 ^ 53 <= index < 2 ^ 53 ->
  height (this w) = Some H -> (1 <= H)%nat ->
  in_order H w -> ok (emptyNodes w) ->
  exists w',
    setLeafNode hash index leaf w = (Ok tt, w') /\
    leaf_row w' = <[index := leaf]> (leaf_row w) /\
    node_at w' (H - 1) (ancestor (H - 1) index)
    = Some (merkle hash (<[index := leaf]> (leaf_row w)) (H - 1)
              (ancestor (H - 1) index)) /\
    (0 <= index < 2 ^ Z.of_nat (H - 1) -> ancestor (H - 1) index = 0).
Proof.
  intros Hindex Hheight HH Hord Hok.
  destruct (setLeafNode_in_order H index leaf w Hindex Hheight HH Hord Hok)
    as (w' & E & Hh & O & K & F & Hrow & Hcached & _).
  exists w'. split; [done|]. split; [done|]. split.
  - destruct (Hcached (H - 1)%nat (ancestor (H - 1) index) ltac:(lia) eq_refl)
      as [v Hv].
    destruct (in_order_merkle H w' O (H - 1)%nat (ancestor (H - 1) index)
                ltac:(lia)) as [Hval _].
    unfold node_value in Hval. rewrite Hv in Hval. simpl in Hval.
    by rewrite Hv, Hval, Hrow.
  - intros Hidx. rewrite ancestor_div. by apply Z.div_small.
Qed.

(** Two cached positions after two calls. *)
Lemma cached_after_two (H : nat) (w w1 w2 : world) (i1 i2 : Z) :
  (forall lev j, (lev < H)%nat -> j = ancestor lev i1 ->
                 is_Some (node_at w1 lev j)) ->
  (forall lev j, (H <= lev)%nat \/ j <> ancestor lev i1 ->
                 node_at w1 lev j = node_at w lev j) ->
  (forall lev j, (lev < H)%nat -> j = ancestor lev i2 ->
                 is_Some (node_at w2 lev j)) ->
  (forall lev j, (H <= lev)%nat \/ j <> ancestor lev i2 ->
                 node_at w2 lev j = node_at w1 lev j) ->
  forall lev j,
    is_Some (node_at w2 lev j) <->
    is_Some (node_at w lev j) \/
    ((lev < H)%nat /\ (j = ancestor lev i1 \/ j = ancestor lev i2)).
Proof.
  intros C1 F1 C2 F2 lev j.
  destruct (decide (lev < H)%nat) as [Hlt|Hge].
  - destruct (decide (j = ancestor lev i2)) as [E2|N2].
    { split; [intros _; right; tauto | intros _; by apply C2]. }
    rewrite F2 by (by right).
    destruct (decide (j = ancestor lev i1)) as [E1|N1].
    { split; [intros _; right; tauto | intros _; by apply C1]. }
    rewrite F1 by (by right). split; [by left | intros [|[_ [|]]]; done].
  - rewrite F2, F1 by (left; lia). split; [by left | intros [|[? _]]; [done|lia]].
Qed.

(** X15. Writes to different leaves commute: on a map whose [height]
    field holds [H >= 1] and whose cache is in order, for positions [i]
    and [j] from [-2^53] to below [2^53], [setLeafNode(i, a)] followed by
    [setLeafNode(j, b)] leaves the same node cache, entry by entry, as
    the two calls in the other order. *)
Theorem setLeafNode_commute (H : nat) (i a j b : Z) (w : world) :
  - 2 ^ 53 <= i < 2 ^ 53 -> - 2 ^ 53 <= j < 2 ^ 53 ->
  height (this w) = Some H -> (1 <= H)%nat ->
  in_order H w -> ok (emptyNodes w) -> i <> j ->
  exists w1 w12 w2 w21,
    setLeafNode hash i a w = (Ok tt, w1) /\
    setLeafNode hash j b w1 = (Ok tt, w12) /\
    setLeafNode hash j b w = (Ok tt, w2) /\
    setLeafNode hash i a w2 = (Ok tt, w21) /\
    forall lev x, node_at w12 lev x = node_at w21 lev x.
Proof.
  intros Hi Hj Hheight HH Hord Hok Hij.
  destruct (setLeafNode_in_order H i a w Hi Hheight HH Hord Hok)
    as (w1 & E1 & H1 & O1 & K1 & _ & R1 & C1 & F1).
  destruct (setLeafNode_in_order H j b w1 Hj H1 HH O1 K1)
    as (w12 & E12 & _ & O12 & _ & _ & R12 & C12 & F12).
  destruct (setLeafNode_in_order H j b w Hj Hheight HH Hord Hok)
    as (w2 & E2 & H2 & O2 & K2 & _ & R2 & C2 & F2).
  destruct (setLeafNode_in_order H i a w2 Hi H2 HH O2 K2)
    as (w21 & E21 & _ & O21 & _ & _ & R21 & C21 & F21).
  exists w1, w12, w2, w21. repeat (split; [done|]).
  apply (in_order_ext H); [done | done | |].
  - rewrite R12, R1, R21, R2. by apply insert_insert_ne.
  - intros lev x.
    rewrite (cached_after_two H w w1 w12 i j C1 F1 C12 F12 lev x).
    rewrite (cached_after_two H w w2 w21 j i C2 F2 C21 F21 lev x).
    tauto.
Qed.

(** X16. The last write to a leaf wins: on a map whose [height] field
    holds [H >= 1] and whose cache is in order, for a position [i] with
    [-2^53 <= i < 2^53], [setLeafNode(i, a)] followed by
    [setLeafNode(i, b)] leaves the same node cache, entry by entry, as
    [setLeafNode(i, b)] alone. *)
Theorem setLeafNode_overwrite (H : nat) (i a b : Z) (w : world) :
  - 2 ^ 53 <= i < 2 ^ 53 ->
  height (this w) = Some H -> (1 <= H)%nat ->
  in_order H w -> ok (emptyNodes w) ->
  exists w1 w12 w2,
    setLeafNode hash i a w = (Ok tt, w1) /\
    setLeafNode hash i b w1 = (Ok tt, w12) /\
    setLeafNode hash i b w = (Ok tt, w2) /\
    forall lev x, node_at w12 lev x = node_at w2 lev x.
Proof.
  intros Hi Hheight HH Hord Hok.
  destruct (setLeafNode_in_order H i a w Hi Hheight HH Hord Hok)
    as (w1 & E1 & H1 & O1 & K1 & _ & R1 & C1 & F1).
  destruct (setLeafNode_in_order H i b w1 Hi H1 HH O1 K1)
    as (w12 & E12 & _ & O12 & _ & _ & R12 & C12 & F12).
  destruct (setLeafNode_in_order H i b w Hi Hheight HH Hord Hok)
    as (w2 & E2 & H2 & O2 & K2 & _ & R2 & C2 & F2).
  exists w1, w12, w2. repeat (split; [done|]).
  apply (in_order_ext H); [done | done | |].
  - rewrite R12, R1, R2. by apply insert_insert_eq.
  - intros lev x.
    rewrite (cached_after_two H w w1 w12 i i C1 F1 C12 F12 lev x).
    destruct (decide (lev < H)%nat) as [Hlt|Hge].
    + destruct (decide (x = ancestor lev i)) as [Ex|Nx].
      * split; [intros _; by apply C2 | intros _; right; tauto].
      * rewrite F2 by (by right). tauto.
    + rewrite F2 by (left; lia). split; [intros [|[? _]]; [done|lia] | by left].
Qed.

End WithHash.
End MerkleMapMore.

(** ** Further properties of the low-node search *)

Module BisectMore.
Import Number Bisect Vocabulary NumberFacts BisectFacts.

(** What looking at every position finds. *)
Lemma scan_down_spec (k : nat) (getValue : Z -> Z) (t : Z) :
  let r := scan_down k getValue t in
  (r = -1 \/ (0 <= r < Z.of_nat k /\ getValue r <= t)) /\
  (forall i, r < i < Z.of_nat k -> t < getValue i).
Proof.
  induction k as [|k IH]; simpl.
  - split; [by left | lia].
  - destruct (Z.leb_spec (getValue (Z.of_nat k)) t) as [Hle|Hgt].
    + split; [right; lia | lia].
    + destruct IH as [Hr Hi]. split; [lia|].
      intros i Hi'. destruct (decide (i = Z.of_nat k)) as [->|]; [done|].
      apply Hi. lia.
Qed.

(** X17. On a strictly increasing sequence of length [n] with
    [1 <= n <= 2^52 + 1], where no position and no sum of two positions
    rounds, the binary search returns exactly what a linear search over
    all positions returns: the largest position whose value is at most
    the target, [-1] if there is none, and whether the value there is the
    target. *)
Theorem bisectUnique_linear_search (getValue : Z -> Z) (n t : Z)
        (fuel : nat) :
  1 <= n -> n <= 2 ^ 52 + 1 ->
  strictly_increasing getValue n -> (passes n <= fuel)%nat ->
  bisectUnique fuel t getValue n = Some (linear_search t getValue n).
Proof.
  intros Hn Hbound Hinc Hfuel.
  assert (Hmono : forall i j, 0 <= i -> i <= j -> j < n ->
                              getValue i <= getValue j).
  { intros i j Hi Hij Hj. destruct (decide (i = j)) as [->|]; [done|].
    apply Z.lt_le_incl, Hinc; lia. }
  unfold linear_search.
  destruct (scan_down_spec (Z.to_nat n) getValue t) as [Hr Habove].
  set (r := scan_down (Z.to_nat n) getValue t) in *.
  rewrite Z2Nat.id in Hr, Habove by lia.
  unfold bisectUnique. rewrite (rnd_exact (n - 1)) by lia.
  destruct (Z.gtb_spec (getValue 0) t) as [Hgt|Hge].
  { assert (r = -1) as ->.
    { destruct Hr as [|[Hr0 Hrt]]; [done|].
      pose proof (Hmono 0 r ltac:(lia) ltac:(lia) ltac:(lia)). lia. }
    done. }
  destruct (Z.ltb_spec (getValue (n - 1)) t) as [Hlt|Hle].
  { assert (r = n - 1) as ->.
    { destruct (decide (r = n - 1)) as [|Hne]; [done|].
      specialize (Habove (n - 1)). lia. }
    f_equal. f_equal.
    destruct (Z.leb_spec 0 (n - 1)); [|lia].
    destruct (Z.eqb_spec (getValue (n - 1)) t); [lia | done]. }
  destruct (loop_returns (Z.to_nat (Z.log2_up n)) t getValue 0 (n - 1))
    as [res Hres]; [lia | lia | |].
  { pose proof (passes_enough n Hn). lia. }
  rewrite (loop_more_fuel (passes n) fuel t getValue 0 (n - 1) res Hres Hfuel).
  destruct (loop_sound (passes n) t getValue n 0 (n - 1) res)
    as (Hi & Hv & Hnext & Hf);
    [done | lia | lia | lia | done | by left | done |].
  assert (Hsame : lowIndex res = r).
  { destruct Hr as [->|[Hr0 Hrt]].
    - specialize (Habove (lowIndex res)). lia.
    - destruct (Z.lt_trichotomy (lowIndex res) r) as [Hlt|[|Hgt]]; [|done|].
      + destruct Hnext as [|Hnext]; [lia|].
        pose proof (Hmono (lowIndex res + 1) r ltac:(lia) ltac:(lia)
                      ltac:(lia)). lia.
      + specialize (Habove (lowIndex res)). lia. }
  f_equal. destruct res as [i found]. simpl in *. subst i. f_equal.
  destruct (Z.leb_spec 0 r); [|lia]. simpl.
  destruct (Z.eqb_spec (getValue r) t) as [Heq|Hne].
  - by apply Hf.
  - destruct found; [|done]. by destruct Hne; apply Hf.
Qed.

Lemma loop_reads_in_range (fuel : nat) (f g : Z -> Z) (n t : Z) :
  n <= 2 ^ 52 + 1 ->
  (forall i, 0 <= i < n -> f i = g i) ->
  forall iLow iHigh, 0 <= iLow -> iLow <= iHigh -> iHigh < n ->
    loop fuel t f iLow iHigh = loop fuel t g iLow iHigh.
Proof.
  intros Hbound Hfg.
  induction fuel as [|fuel IH]; intros iLow iHigh H0 Hle Hn; [done|].
  simpl.
  pose proof (body_shrinks t f iLow iHigh H0 Hle ltac:(lia)) as Hb.
  assert (Hbody : body t f iLow iHigh = body t g iLow iHigh).
  { unfold body. destruct (Z.eqb_spec iHigh iLow) as [->|Hne].
    - by rewrite Hfg by lia.
    - pose proof (ceil_half_bounds iLow iHigh ltac:(lia)).
      rewrite (rnd_exact (iLow + iHigh)) by lia.
      by rewrite Hfg by lia. }
  rewrite <- Hbody.
  destruct (body t f iLow iHigh) as [r|lo' hi']; [done|].
  apply IH; lia.
Qed.

(** X18. For [1 <= n <= 2^52 + 1], where no position and no sum of two
    positions rounds, the search reads the sequence at positions
    [0 .. n-1] only: two accessors that agree there give the same run,
    whatever they return elsewhere. *)
Theorem bisectUnique_reads_in_range (fuel : nat) (f g : Z -> Z) (n t : Z) :
  1 <= n -> n <= 2 ^ 52 + 1 -> (forall i, 0 <= i < n -> f i = g i) ->
  bisectUnique fuel t f n = bisectUnique fuel t g n.
Proof.
  intros Hn Hbound Hfg. unfold bisectUnique.
  rewrite (rnd_exact (n - 1)) by lia.
  rewrite (Hfg 0), (Hfg (n - 1)) by lia.
  destruct (g 0 >? t); [done|]. destruct (g (n - 1) <? t); [done|].
  apply (loop_reads_in_range fuel f g n t Hbound Hfg); lia.
Qed.

End BisectMore.

(* ===================================================================== *)
(** * Part III: the code on sample inputs                                 *)
(* ===================================================================== *)

Module Runs.
Import Number Circuit RangeCheck MerkleMap Vocabulary Bisect.
Import BisectFacts RangeCheckFacts MerkleMapFacts.

(** *** Numbers above [2^53] *)

Example rnd_tie_down : rnd (2 ^ 53 + 1) = 2 ^ 53.
Proof. reflexivity. Qed.

Example rnd_tie_up : rnd (2 ^ 53 + 3) = 2 ^ 53 + 4.
Proof. reflexivity. Qed.

Example rnd_number : rnd (2 ^ 53 + 2) = 2 ^ 53 + 2.
Proof. reflexivity. Qed.

Example rnd_negative : rnd (- (2 ^ 53 + 1)) = - 2 ^ 53.
Proof. reflexivity. Qed.

Example rnd_coarser : rnd (2 ^ 54 + 3) = 2 ^ 54 + 4.
Proof. reflexivity. Qed.

(** *** [bisectUnique] *)

Example bisect_found :
  bisectUnique 4 7 sample_values 5 = Some (mkResult 2 true).
Proof. reflexivity. Qed.

Example bisect_between :
  bisectUnique 4 8 sample_values 5 = Some (mkResult 2 false).
Proof. reflexivity. Qed.

Example bisect_below :
  bisectUnique 4 0 sample_values 5 = Some (mkResult (-1) false).
Proof. reflexivity. Qed.

Example bisect_above :
  bisectUnique 4 14 sample_values 5 = Some (mkResult 4 false).
Proof. reflexivity. Qed.

(** Two passes are not enough for five values. *)
Example bisect_still_running : bisectUnique 2 7 sample_values 5 = None.
Proof. reflexivity. Qed.



Lemma bisectUnique_terminates_witness :
  is_Some (bisectUnique (passes 5) 8 sample_values 5).
Proof.
  apply (bisectUnique_terminates sample_values 5 8); lia.
Defined.

(** Where section 4.8 fails: a length above [2^52 + 1]. On the
    sequence of positions of length [2^52 + 2] and the target [2^52],
    the search comes, after 53 passes, to the two-element interval
    [2^52, 2^52 + 1]. The sum of its bounds, [2^53 + 1], rounds to
    [2^53], so the midpoint is the lower bound [2^52]; its value is at
    most the target, and the pass goes on with the bounds it was given.
    The loop never returns. *)
Lemma bisectUnique_never_returns :
  strictly_increasing positions (2 ^ 52 + 2) /\
  after_passes 53 (2 ^ 52) positions 0 (rnd (2 ^ 52 + 2 - 1))
  = Some (2 ^ 52, 2 ^ 52 + 1) /\
  rnd (2 ^ 52 + (2 ^ 52 + 1)) = 2 ^ 53 /\
  body (2 ^ 52) positions (2 ^ 52) (2 ^ 52 + 1)
  = Again (2 ^ 52) (2 ^ 52 + 1) /\
  (forall fuel, bisectUnique fuel (2 ^ 52) positions (2 ^ 52 + 2) = None).
Proof.
  split; [intros i j Hi Hij Hj; unfold positions; lia|].
  split; [vm_compute; reflexivity|]. split; [reflexivity|].
  split; [vm_compute; reflexivity|].
  intros fuel.
  change (bisectUnique fuel (2 ^ 52) positions (2 ^ 52 + 2))
    with (loop fuel (2 ^ 52) positions 0 (2 ^ 52 + 1)).
  apply (loop_after_passes 53 (2 ^ 52) positions 0 (2 ^ 52 + 1)
           (2 ^ 52) (2 ^ 52 + 1)); [vm_compute; reflexivity|].
  intros fuel'. apply loop_stuck. vm_compute. reflexivity.
Qed.

(** *** Range checks on constants *)

Example rangeCheck64_limbs :
  fst (rangeCheck64 pallas (Constant 0x123456789abcdef0) sample_circuit)
  = Ok (Constant 0x123, Constant 0x456, Constant 0x789, Constant 0xabc).
Proof. reflexivity. Qed.

Example rangeCheck64_too_big :
  fst (rangeCheck64 pallas (Constant (2 ^ 64)) sample_circuit)
  = Throw (Error
      "rangeCheck64: expected field to fit in 64 bits, got 18446744073709551616").
Proof. vm_compute. reflexivity. Qed.

Example multiRangeCheck_too_big :
  fst (multiRangeCheck pallas (Constant 5, Constant (2 ^ 88), Constant 6)
         sample_circuit)
  = Throw (Error
      "Expected fields to fit in 88 bits, got 5, 309485009821345068724781056, 6").
Proof. vm_compute. reflexivity. Qed.

Lemma rangeCheck64_constant_witness :
  rangeCheck64 pallas (Constant (2 ^ 64 - 1)) sample_circuit
  = (Ok (Constant (bitSlice (2 ^ 64 - 1) 52 12),
         Constant (bitSlice (2 ^ 64 - 1) 40 12),
         Constant (bitSlice (2 ^ 64 - 1) 28 12),
         Constant (bitSlice (2 ^ 64 - 1) 16 12)), sample_circuit)
  /\ rangeCheck64 pallas (Constant (2 ^ 64)) sample_circuit
     = (Throw (Error ("rangeCheck64: expected field to fit in 64 bits, got "
                      +:+ pretty (2 ^ 64))), sample_circuit).
Proof.
  split.
  - apply (rangeCheck64_constant pallas (2 ^ 64 - 1) sample_circuit);
      [unfold pallas; lia | lia].
  - apply (rangeCheck64_constant pallas (2 ^ 64) sample_circuit);
      [unfold pallas; lia | lia].
Defined.

Lemma compactMultiRangeCheck_roundtrip_witness :
  compactMultiRangeCheck pallas
    (new_Field pallas (5 + 9 * 2 ^ 88)) (new_Field pallas 6) sample_circuit
  = (Ok (Constant 5, Constant 9, Constant 6), sample_circuit).
Proof.
  apply (compactMultiRangeCheck_roundtrip pallas 5 9 6 sample_circuit);
    [unfold pallas; lia | lia | lia | lia].
Defined.

Lemma multiRangeCheck_constants_witness :
  multiRangeCheck pallas (Constant 5, Constant (2 ^ 88 - 1), Constant 0)
    sample_circuit = (Ok tt, sample_circuit)
  /\ multiRangeCheck pallas (Constant 5, Constant (2 ^ 88), Constant 6)
       sample_circuit
     = (Throw (Error ("Expected fields to fit in 88 bits, got " +:+
                      pretty 5 +:+ ", " +:+ pretty (2 ^ 88) +:+ ", " +:+
                      pretty 6)), sample_circuit).
Proof.
  split.
  - apply (multiRangeCheck_constants pallas 5 (2 ^ 88 - 1) 0 sample_circuit);
      lia.
  - apply (multiRangeCheck_constants pallas 5 (2 ^ 88) 6 sample_circuit);
      lia.
Defined.

(** *** Range checks with a variable among the inputs: the constant
    [2^100] is far out of range, and nothing is thrown. *)

Example multiRangeCheck_mixed :
  let '(r, s) := multiRangeCheck pallas (Constant (2 ^ 100), Var 0, Constant 6)
                   sample_circuit in
  r = Ok tt /\ next_var s = 53%nat /\ Datatypes.length (gates s) = 3%nat.
Proof. vm_compute. done. Qed.

Lemma multiRangeCheck_gate_path_witness :
  exists s',
    multiRangeCheck pallas (Constant (2 ^ 100), Var 0, Constant 6)
      sample_circuit = (Ok tt, s') /\
    advanced 52
      [row0 (Constant (2 ^ 100)) 1 false;
       row0 (Var 0) 15 false;
       row1 (Var 13) (Var 14) (Var 27) (Var 28) (Constant 6)
            (new_Field pallas 0) 29]
      sample_circuit s'.
Proof.
  apply (multiRangeCheck_gate_path pallas (Constant (2 ^ 100)) (Var 0)
           (Constant 6) sample_circuit).
  - reflexivity.
  - exact I.
  - intros _. by exists 7.
  - exact I.
Defined.

(** *** The empty-subtree cache *)

Example empty_extends_cache :
  let '(r, a) := empty toy_hash 2 emptyNodes_init in
  r = Ok (Some (toy_hash [toy_hash [0; 0]; toy_hash [0; 0]])) /\
  arr_length a = 3%nat.
Proof. vm_compute. done. Qed.

Lemma empty_deterministic_recurrence_witness :
  fst (empty toy_hash 2 emptyNodes_init)
  = fst (empty toy_hash 2 (snd (empty toy_hash 5 emptyNodes_init))) /\
  fst (empty toy_hash 2 (snd (empty toy_hash 2 emptyNodes_init)))
  = fst (empty toy_hash 2 emptyNodes_init) /\
  fst (empty toy_hash 0 emptyNodes_init) = Ok (Some 0) /\
  exists v : Z,
    fst (empty toy_hash 2 emptyNodes_init) = Ok (Some v) /\
    fst (empty toy_hash 3 (snd (empty toy_hash 5 emptyNodes_init)))
    = Ok (Some (toy_hash [v; v])).
Proof.
  apply (empty_deterministic_recurrence toy_hash emptyNodes_init
           (snd (empty toy_hash 5 emptyNodes_init)) 2).
  - apply reachable_init.
  - apply reachable_empty, reachable_init.
Defined.

(** *** The constructor *)

Example constructor_3 :
  exists m a,
    constructor pallas toy_hash 3 emptyNodes_init = (Ok m, a) /\
    root m = Constant (toy_hash [toy_hash [0; 0]; toy_hash [0; 0]]) /\
    length m = Constant 0 /\
    height m = None /\
    nodes (data m) = [∅; ∅; ∅].
Proof. eexists _, _. vm_compute. done. Qed.


(** *** [getNode] *)

Example getNode_unknown :
  fst (getNode toy_hash 1 7 true sample_world)
  = Throw (Error
      "node at level=1, index=7 was expected to be known, but isn't.").
Proof. vm_compute. reflexivity. Qed.

Lemma getNode_cases_witness :
  getNode toy_hash 0 2 true sample_world = (Ok (Some 5), sample_world) /\
  getNode toy_hash 1 7 true sample_world
  = (Throw (Error ("node at level=" +:+ pretty 1%nat +:+ ", index=" +:+
                   pretty 7 +:+
                   " was expected to be known, but isn't.")), sample_world) /\
  fst (getNode toy_hash 1 7 false sample_world)
  = Ok (Some (canonical_empty toy_hash 1)).
Proof.
  split; [|split].
  - apply (getNode_cases toy_hash 0 2 true sample_world). reflexivity.
  - apply (getNode_cases toy_hash 1 7 true sample_world); reflexivity.
  - apply (getNode_cases toy_hash 1 7 false sample_world);
      [reflexivity | reflexivity | apply reachable_init].
Defined.

(** *** [setLeafNode] *)

(** On a map whose [height] field is filled in, the path is rehashed up
    to the top row; [root] stays what it was. *)
Example setLeafNode_sample :
  let '(r, w') := setLeafNode toy_hash 2 5 sample_world in
  r = Ok tt /\
  node_at w' 0 2 = Some 5 /\
  node_at w' 1 1 = Some (toy_hash [5; 0]) /\
  node_at w' 2 0 = Some (toy_hash [toy_hash [0; 0]; toy_hash [5; 0]]) /\
  root (this w') = Constant (toy_hash [toy_hash [0; 0]; toy_hash [0; 0]]).
Proof. vm_compute. done. Qed.

Lemma setLeafNode_path_witness :
  exists w',
    setLeafNode toy_hash 2 5 sample_world = (Ok tt, w') /\
    node_at w' 0 2 = Some 5 /\
    getNode toy_hash 0 2 true w' = (Ok (Some 5), w') /\
    (forall lev, (1 <= lev < 3)%nat ->
       let i := ancestor lev 2 in
       let isLeft := Z.rem (ancestor (lev - 1) 2) 2 =? 0 in
       exists left right : Z,
         fst (getNode toy_hash (lev - 1) (i * 2) isLeft w') = Ok (Some left) /\
         fst (getNode toy_hash (lev - 1) (i * 2 + 1) (negb isLeft) w')
         = Ok (Some right) /\
         node_at w' lev i = Some (toy_hash [left; right])) /\
    (forall lev j, (3 <= lev)%nat \/ j <> ancestor lev 2 ->
                   node_at w' lev j = node_at sample_world lev j) /\
    root (this w') = root (this sample_world) /\
    same_fields sample_world w'.
Proof.
  apply (setLeafNode_path toy_hash 3 2 5 sample_world);
    [lia | reflexivity | lia | simpl; lia | apply reachable_init].
Defined.

(** Where section 4.9 fails. On a map as the constructor returns it for
    height 1, the leaf row is the top row: after [setLeafNode(0, 5)] the
    top hash is [5], and [root] is still [0]. On the sample map, whose
    [height] field is filled in, [setLeafNode(2, 5)] rehashes the path up
    to the top row, and [root] is still the root of the empty tree. On a
    map as the constructor returns it for height 2, [height] was never
    assigned, so the loop makes no pass: row 1 stays empty. On the
    sample map again, [setLeafNode(2^53, 5)] takes the leaf itself for
    its right sibling, as [2^52 * 2 + 1] rounds to [2^53]: the parent
    holds [hash(5, 5)], though nothing is cached at position
    [2^53 + 1]. *)
Lemma setLeafNode_as_stated_fails :
  (exists (m : IndexedMerkleMap) (a : JsArray) (w' : world),
     constructor pallas toy_hash 1 emptyNodes_init = (Ok m, a) /\
     setLeafNode toy_hash 0 5 (mkWorld a m) = (Ok tt, w') /\
     node_at w' 0 0 = Some 5 /\
     root (this w') = root m /\
     root (this w') = Constant 0 /\
     ~ setLeafNode_as_stated pallas toy_hash 1 (mkWorld a m) 0 5) /\
  (exists w' : world,
     setLeafNode toy_hash 2 5 sample_world = (Ok tt, w') /\
     node_at w' 2 0 = Some (toy_hash [toy_hash [0; 0]; toy_hash [5; 0]]) /\
     root (this w') = root (this sample_world) /\
     root (this w')
     = new_Field pallas (toy_hash [toy_hash [0; 0]; toy_hash [0; 0]]) /\
     ~ setLeafNode_as_stated pallas toy_hash 3 sample_world 2 5) /\
  (exists (m : IndexedMerkleMap) (a : JsArray) (w' : world),
     constructor pallas toy_hash 2 emptyNodes_init = (Ok m, a) /\
     setLeafNode toy_hash 0 5 (mkWorld a m) = (Ok tt, w') /\
     node_at w' 0 0 = Some 5 /\
     node_at w' 1 0 = None /\
     root (this w') = root m /\
     ~ setLeafNode_as_stated pallas toy_hash 2 (mkWorld a m) 0 5) /\
  (exists w' : world,
     setLeafNode toy_hash (2 ^ 53) 5 sample_world = (Ok tt, w') /\
     ancestor 1 (2 ^ 53) = 2 ^ 52 /\
     Number.rnd (2 ^ 52 * 2 + 1) = 2 ^ 53 /\
     node_at w' 1 (2 ^ 52) = Some (toy_hash [5; 5]) /\
     node_at w' 0 (2 ^ 52 * 2 + 1) = None /\
     fst (getNode toy_hash 0 (2 ^ 52 * 2) true w') = Ok (Some 5) /\
     fst (getNode toy_hash 0 (2 ^ 52 * 2 + 1) false w') = Ok (Some 0) /\
     toy_hash [5; 5] <> toy_hash [5; 0]).
Proof.
  split; [|split; [|split]].
  - eexists _, _, _.
    split; [vm_compute; reflexivity|].
    split; [vm_compute; reflexivity|].
    split; [reflexivity|]. split; [reflexivity|]. split; [reflexivity|].
    intros (w' & Hrun & _ & _ & Hroot).
    vm_compute in Hrun. injection Hrun as <-.
    vm_compute in Hroot. discriminate.
  - eexists.
    split; [vm_compute; reflexivity|].
    split; [reflexivity|]. split; [reflexivity|]. split; [reflexivity|].
    intros (w' & Hrun & _ & _ & Hroot).
    vm_compute in Hrun. injection Hrun as <-.
    vm_compute in Hroot. discriminate.
  - eexists _, _, _.
    split; [vm_compute; reflexivity|].
    split; [vm_compute; reflexivity|].
    split; [reflexivity|]. split; [reflexivity|]. split; [reflexivity|].
    intros (w' & Hrun & _ & Hanc & _).
    vm_compute in Hrun. injection Hrun as <-.
    destruct (Hanc 1%nat ltac:(lia)) as (l & r & _ & _ & Hnode).
    vm_compute in Hnode. discriminate.
  - eexists.
    split; [vm_compute; reflexivity|].
    repeat (split; [reflexivity|]). done.
Qed.

End Runs.

Module RunsMore.
Import Circuit RangeCheck MerkleMap Vocabulary Bisect.
Import RangeCheckFacts MerkleMapFacts BisectFacts.
Import RangeCheckMore MerkleMapMore BisectMore.

(** *** Range checks *)

Example rangeCheck64_variable_run :
  let '(r, s) := rangeCheck64 pallas (Var 0) sample_circuit in
  r = Ok (Var 12, Var 11, Var 10, Var 9) /\
  witness_of s 1 12
  = Some <$> [3; 1; 0; 0; 0; 0; 0; 0; 0; 0; 0; 0] /\
  pack (crumbs_limbs 4) [3; 1; 0; 0; 0; 0; 0; 0; 0; 0; 0; 0] = 7.
Proof. vm_compute. done. Qed.

Lemma splitCompactLimb_unpack_witness :
  0 <= fst (splitCompactLimb (5 + 9 * 2 ^ 88)) < 2 ^ 88 /\
  0 <= snd (splitCompactLimb (5 + 9 * 2 ^ 88)) /\
  fst (splitCompactLimb (5 + 9 * 2 ^ 88))
  + snd (splitCompactLimb (5 + 9 * 2 ^ 88)) * 2 ^ 88 = 5 + 9 * 2 ^ 88 /\
  (snd (splitCompactLimb (5 + 9 * 2 ^ 88)) < 2 ^ 88
   <-> 5 + 9 * 2 ^ 88 < 2 ^ 176).
Proof. apply (splitCompactLimb_unpack (5 + 9 * 2 ^ 88)). lia. Defined.

Lemma compactMultiRangeCheck_constants_witness :
  (exists x y : Z,
     compactMultiRangeCheck pallas (Constant (5 + 9 * 2 ^ 88)) (Constant 6)
       sample_circuit
     = (Ok (new_Field pallas x, new_Field pallas y, Constant 6),
        sample_circuit) /\
     0 <= x < 2 ^ 88 /\ 0 <= y < 2 ^ 88 /\ 5 + 9 * 2 ^ 88 = x + y * 2 ^ 88) /\
  compactMultiRangeCheck pallas (Constant (2 ^ 176)) (Constant 6)
    sample_circuit
  = (Throw (Error
       ("Expected fields to fit in 176 and 88 bits respectively, got "
        +:+ pretty (2 ^ 176) +:+ ", " +:+ pretty 6)), sample_circuit).
Proof.
  split.
  - apply (compactMultiRangeCheck_constants pallas (5 + 9 * 2 ^ 88) 6
             sample_circuit); lia.
  - apply (compactMultiRangeCheck_constants pallas (2 ^ 176) 6
             sample_circuit); lia.
Defined.

Lemma rangeCheck64_variable_witness :
  exists s',
    rangeCheck64 pallas (Var 0) sample_circuit
    = (Ok (Var 12, Var 11, Var 10, Var 9), s') /\
    grown 12
      [RangeCheck0 (Var 0)
         ([new_Field pallas 0; new_Field pallas 0] ++ rev (fresh 9 4))
         (rev (fresh 1 8)) false]
      sample_circuit s'.
Proof.
  apply (rangeCheck64_variable pallas 0 sample_circuit).
  intros _. by exists 7.
Defined.

Lemma rangeCheck64_witness_witness :
  exists (s' : state) (ws : list Z),
    rangeCheck64 pallas (Var 0) sample_circuit
    = (Ok (Var 12, Var 11, Var 10, Var 9), s') /\
    witness_of s' 1 12 = Some <$> ws /\
    Forall2 (fun w l => 0 <= l < 2 ^ w) (crumbs_limbs 4) ws /\
    pack (crumbs_limbs 4) ws = 7 mod 2 ^ 64 /\
    (0 <= 7 -> (pack (crumbs_limbs 4) ws = 7 <-> 7 < 2 ^ 64)).
Proof.
  apply (rangeCheck64_witness pallas 0 sample_circuit 7);
    [unfold pallas; lia | reflexivity | simpl; lia | reflexivity].
Defined.

Lemma rangeCheck0Helper_witness_witness :
  exists (s' : state) (ws : list Z),
    rangeCheck0Helper pallas (Constant (2 ^ 100 + 5)) true sample_circuit
    = (Ok (Var 13, Var 14), s') /\
    next_var s' = 15%nat /\
    gates s' = gates sample_circuit
               ++ [row0 (Constant (2 ^ 100 + 5)) 1 true] /\
    witness_of s' 1 14 = Some <$> ws /\
    Forall2 (fun w l => 0 <= l < 2 ^ w) (crumbs_limbs 6) ws /\
    pack (crumbs_limbs 6) ws = (2 ^ 100 + 5) mod 2 ^ 88 /\
    (0 <= 2 ^ 100 + 5 ->
     (pack (crumbs_limbs 6) ws = 2 ^ 100 + 5 <-> 2 ^ 100 + 5 < 2 ^ 88)).
Proof.
  apply (rangeCheck0Helper_witness pallas (Constant (2 ^ 100 + 5)) true
           sample_circuit (2 ^ 100 + 5));
    [unfold pallas; lia | reflexivity | exact I | reflexivity].
Defined.

Lemma rangeCheck1Helper_witness_witness :
  exists (s' : state) (ws : list Z),
    rangeCheck1Helper pallas
      (mkInputs1 (Constant 1) (Constant 2) (Constant 3) (Constant 4)
                 (Var 0) (Constant 0)) sample_circuit = (Ok tt, s') /\
    next_var s' = 25%nat /\
    gates s' = gates sample_circuit
               ++ [row1 (Constant 1) (Constant 2) (Constant 3) (Constant 4)
                        (Var 0) (Constant 0) 1] /\
    witness_of s' 14 11 ++ witness_of s' 1 13 = Some <$> ws /\
    Forall2 (fun w l => 0 <= l < 2 ^ w) (widths1_next ++ widths1_curr) ws /\
    pack (widths1_next ++ widths1_curr) ws = 7 mod 2 ^ 88 /\
    (0 <= 7 -> (pack (widths1_next ++ widths1_curr) ws = 7 <-> 7 < 2 ^ 88)).
Proof.
  apply (rangeCheck1Helper_witness pallas (Constant 1) (Constant 2)
           (Constant 3) (Constant 4) (Var 0) (Constant 0) sample_circuit 7);
    [unfold pallas; lia | reflexivity | simpl; lia | reflexivity].
Defined.

Lemma compactMultiRangeCheck_variable_witness :
  exists s',
    compactMultiRangeCheck pallas (Var 0) (Constant (2 ^ 100)) sample_circuit
    = (Ok (Var 1, Var 2, Constant (2 ^ 100)), s') /\
    grown 54
      [row0 (Constant (2 ^ 100)) 3 false;
       row0 (Var 1) 17 true;
       row1 (Var 15) (Var 16) (Var 29) (Var 30) (Var 2) (Var 0) 31]
      sample_circuit s'.
Proof.
  apply (compactMultiRangeCheck_variable pallas (Var 0) (Constant (2 ^ 100))
           sample_circuit).
  - reflexivity.
  - intros _. by exists 7.
  - exact I.
Defined.

Lemma compactMultiRangeCheck_witness_witness :
  exists (s' : state) (x y : Z),
    compactMultiRangeCheck pallas (Var 0) (Constant 3) sample_circuit
    = (Ok (Var 1, Var 2, Constant 3), s') /\
    values s' !! 1%nat = Some x /\ values s' !! 2%nat = Some y /\
    0 <= x < 2 ^ 88 /\ 0 <= y /\ 7 = x + 2 ^ 88 * y.
Proof.
  apply (compactMultiRangeCheck_witness pallas (Var 0) (Constant 3)
           sample_circuit 7);
    [unfold pallas; lia | unfold pallas; lia | reflexivity | reflexivity
    | reflexivity | exact I].
Defined.

Lemma rangeCheck64_constant_digits_witness :
  exists l52 l40 l28 l16 : Z,
    rangeCheck64 pallas (Constant 0x123456789abcdef0) sample_circuit
    = (Ok (Constant l52, Constant l40, Constant l28, Constant l16),
       sample_circuit) /\
    Forall (fun l => 0 <= l < 2 ^ 12) [l16; l28; l40; l52] /\
    pack [12; 12; 12; 12] [l16; l28; l40; l52]
    = 0x123456789abcdef0 / 2 ^ 16.
Proof.
  apply (rangeCheck64_constant_digits pallas 0x123456789abcdef0
           sample_circuit); [unfold pallas; lia | lia].
Defined.

(** *** The empty-subtree cache *)

Lemma empty_append_only_witness :
  empty toy_hash 0 (snd (empty toy_hash 3 emptyNodes_init))
  = (Ok (arr_get (snd (empty toy_hash 3 emptyNodes_init)) 0),
     snd (empty toy_hash 3 emptyNodes_init)) /\
  arr_get (snd (empty toy_hash 3 emptyNodes_init)) 0
  = arr_get emptyNodes_init 0.
Proof.
  split.
  - apply (empty_append_only toy_hash 0
             (snd (empty toy_hash 3 emptyNodes_init))).
    vm_compute. lia.
  - apply (empty_append_only toy_hash 3 emptyNodes_init). simpl. lia.
Defined.

(** *** [setLeafNode] *)

Lemma setLeafNode_after_constructor_witness :
  exists w',
    setLeafNode toy_hash 1 5
      (mkWorld (snd (constructor pallas toy_hash 2 emptyNodes_init))
         (mkMap (Constant (toy_hash [0; 0])) (Constant 0) None
            (mkData [] [∅; ∅] [])))
    = (Ok tt, w') /\
    emptyNodes w' = snd (constructor pallas toy_hash 2 emptyNodes_init) /\
    root (this w') = Constant (toy_hash [0; 0]) /\
    forall lev j,
      node_at w' lev j
      = if decide (lev = 0%nat /\ j = 1) then Some 5 else None.
Proof.
  apply (setLeafNode_after_constructor pallas toy_hash 2 emptyNodes_init).
  vm_compute. reflexivity.
Defined.

(** The blank map after [setLeafNode(2, 5)]. *)
Example planted_world_nodes :
  node_at planted_world 0 2 = Some 5 /\
  node_at planted_world 1 1 = Some (toy_hash [5; 0]) /\
  node_at planted_world 2 0
  = Some (toy_hash [toy_hash [0; 0]; toy_hash [5; 0]]) /\
  node_at planted_world 1 0 = None /\
  height (this planted_world) = Some 3%nat.
Proof. vm_compute. done. Qed.

Lemma planted_in_order :
  height (this planted_world) = Some 3%nat /\
  cache_in_order toy_hash 3 planted_world /\
  cache_ok toy_hash (emptyNodes planted_world).
Proof.
  destruct (setLeafNode_in_order toy_hash 3 2 5 blank_world)
    as (w' & E & Hh & O & K & _);
    [lia | reflexivity | lia | by apply blank_in_order | apply cache_ok_init|].
  unfold planted_world. by rewrite E.
Qed.

Lemma setLeafNode_keeps_order_witness :
  exists w',
    setLeafNode toy_hash 3 8 planted_world = (Ok tt, w') /\
    height (this w') = Some 3%nat /\
    cache_in_order toy_hash 3 w' /\ cache_ok toy_hash (emptyNodes w').
Proof.
  apply (setLeafNode_keeps_order toy_hash 3 3 8 planted_world);
    [lia | apply planted_in_order | lia | apply planted_in_order
    | apply planted_in_order].
Defined.

(** A read of a cached node, and a read of one that is not cached. *)
Example getNode_reads_merkle_run :
  fst (getNode toy_hash 1 1 false planted_world)
  = Ok (Some (toy_hash [5; 0])) /\
  merkle toy_hash (leaf_row planted_world) 1 1 = toy_hash [5; 0] /\
  fst (getNode toy_hash 1 0 false planted_world)
  = Ok (Some (toy_hash [0; 0])) /\
  merkle toy_hash (leaf_row planted_world) 1 0 = toy_hash [0; 0].
Proof. vm_compute. done. Qed.

Lemma getNode_reads_merkle_witness :
  (fst (getNode toy_hash 1 1 false planted_world)
   = Ok (Some (merkle toy_hash (leaf_row planted_world) 1 1)) /\
   (forall v, node_at planted_world 1 1 = Some v ->
              v = merkle toy_hash (leaf_row planted_world) 1 1) /\
   (node_at planted_world 1 1 = None ->
    merkle toy_hash (leaf_row planted_world) 1 1
    = canonical_empty toy_hash 1)) /\
  (fst (getNode toy_hash 1 0 false planted_world)
   = Ok (Some (merkle toy_hash (leaf_row planted_world) 1 0)) /\
   (forall v, node_at planted_world 1 0 = Some v ->
              v = merkle toy_hash (leaf_row planted_world) 1 0) /\
   (node_at planted_world 1 0 = None ->
    merkle toy_hash (leaf_row planted_world) 1 0
    = canonical_empty toy_hash 1)).
Proof.
  split.
  - apply (getNode_reads_merkle toy_hash 3 planted_world 1 1);
      [apply planted_in_order | apply planted_in_order | lia].
  - apply (getNode_reads_merkle toy_hash 3 planted_world 1 0);
      [apply planted_in_order | apply planted_in_order | lia].
Defined.

(** The path of leaf 2 in a tree of height 3, rehashed from scratch. *)
Example setLeafNode_top_hash_run :
  let '(r, w') := setLeafNode toy_hash 2 5 blank_world in
  r = Ok tt /\
  node_at w' 2 0 = Some (merkle toy_hash {[ 2 := 5 ]} 2 0) /\
  merkle toy_hash {[ 2 := 5 ]} 2 0
  = toy_hash [toy_hash [0; 0]; toy_hash [5; 0]].
Proof. vm_compute. done. Qed.

Lemma setLeafNode_top_hash_witness :
  exists w',
    setLeafNode toy_hash 3 8 planted_world = (Ok tt, w') /\
    leaf_row w' = <[3 := 8]> (leaf_row planted_world) /\
    node_at w' (3 - 1) (ancestor (3 - 1) 3)
    = Some (merkle toy_hash (<[3 := 8]> (leaf_row planted_world)) (3 - 1)
              (ancestor (3 - 1) 3)) /\
    (0 <= 3 < 2 ^ Z.of_nat (3 - 1) -> ancestor (3 - 1) 3 = 0).
Proof.
  apply (setLeafNode_top_hash toy_hash 3 3 8 planted_world);
    [lia | apply planted_in_order | lia | apply planted_in_order
    | apply planted_in_order].
Defined.

Lemma setLeafNode_commute_witness :
  exists w1 w12 w2 w21,
    setLeafNode toy_hash 0 6 planted_world = (Ok tt, w1) /\
    setLeafNode toy_hash 3 8 w1 = (Ok tt, w12) /\
    setLeafNode toy_hash 3 8 planted_world = (Ok tt, w2) /\
    setLeafNode toy_hash 0 6 w2 = (Ok tt, w21) /\
    forall lev x, node_at w12 lev x = node_at w21 lev x.
Proof.
  apply (setLeafNode_commute toy_hash 3 0 6 3 8 planted_world);
    [lia | lia | apply planted_in_order | lia | apply planted_in_order
    | apply planted_in_order | lia].
Defined.

Lemma setLeafNode_overwrite_witness :
  exists w1 w12 w2,
    setLeafNode toy_hash 1 6 planted_world = (Ok tt, w1) /\
    setLeafNode toy_hash 1 8 w1 = (Ok tt, w12) /\
    setLeafNode toy_hash 1 8 planted_world = (Ok tt, w2) /\
    forall lev x, node_at w12 lev x = node_at w2 lev x.
Proof.
  apply (setLeafNode_overwrite toy_hash 3 1 6 8 planted_world);
    [lia | apply planted_in_order | lia | apply planted_in_order
    | apply planted_in_order].
Defined.

(** *** The low-node search *)

Example linear_search_found :
  linear_search 7 sample_values 5 = mkResult 2 true.
Proof. reflexivity. Qed.

Lemma bisectUnique_linear_search_witness :
  bisectUnique (passes 5) 8 sample_values 5
  = Some (linear_search 8 sample_values 5).
Proof.
  apply (bisectUnique_linear_search sample_values 5 8 (passes 5));
    [lia | lia | intros i j Hi Hij Hj; unfold sample_values; lia | lia].
Defined.

Lemma bisectUnique_reads_in_range_witness :
  bisectUnique 4 8 sample_values 5 = bisectUnique 4 8 sample_values_junk 5.
Proof.
  apply (bisectUnique_reads_in_range 4 sample_values sample_values_junk 5 8);
    [lia | lia |].
  intros i Hi. unfold sample_values, sample_values_junk.
  destruct (Z.leb_spec 0 i); [|lia]. destruct (Z.ltb_spec i 5); [|lia].
  reflexivity.
Defined.

End RunsMore.
